(** * Px: combinators over the native Promise (src/px.js)

    A shallow embedding of [src/src/px.js] together with the part of the host
    runtime it calls into: the native Promise (its resolving functions,
    reaction jobs and thenable adoption, as laid out in ECMAScript 27.2),
    the microtask queue, and [setTimeout] over a virtual clock.

    JavaScript closures are stored inside promises, so they are represented
    by first-order data: one constructor of [Fn] per arrow function of
    px.js, holding the variables that the arrow function captures.  Mutable
    captured variables ([tries], [success], the host's [[AlreadyResolved]]
    records) live in a store of cells.  User code is a parameter: it acts on
    a world [W] of the user's own choosing, which is how the theorems
    observe how often and with which arguments it has been invoked. *)

From stdpp Require Import base list numbers strings.

Open Scope Z_scope.
Open Scope nat_scope.

(** ** Values *)

(** The JavaScript values that flow through the combinators.  The host's
    resolution procedure treats a value in one of two ways: a thenable is
    adopted, anything else is stored as a fulfilment value.  The two kinds
    are kept apart by type: [Data] are the values that are not thenables
    (objects carry an identity [oid]), and a [Value] is either one of them
    or a reference to a native promise, the only thenable of the model. *)
#[local] Set Warnings "-register-all".
Inductive Data : Type :=
| DUndefined
| DBool (b : bool)
| DNum (z : Z)
| DNaN
| DStr (s : string)
| DObject (oid : nat)
| DError (oid : nat) (msg : string)
| DArray (oid : nat) (elems : list Data).

Inductive Value : Type :=
| VData (d : Data)
| VPromise (p : nat).

Coercion VData : Data >-> Value.

(** [x === y]: primitives by value (and [NaN] differs from itself), objects
    by identity. *)
Definition data_eq (x y : Data) : bool :=
  match x, y with
  | DUndefined, DUndefined => true
  | DBool a, DBool b => Bool.eqb a b
  | DNum a, DNum b => Z.eqb a b
  | DStr a, DStr b => String.eqb a b
  | DObject a, DObject b => Nat.eqb a b
  | DError a _, DError b _ => Nat.eqb a b
  | DArray a _, DArray b _ => Nat.eqb a b
  | _, _ => false
  end.

Definition strict_eq (x y : Value) : bool :=
  match x, y with
  | VData a, VData b => data_eq a b
  | VPromise a, VPromise b => Nat.eqb a b
  | _, _ => false
  end.

(** [x % y] on numbers: the remainder takes the sign of the dividend, and a
    zero divisor gives [NaN]. *)
Definition js_rem (x y : Value) : Value :=
  match x, y with
  | VData (DNum a), VData (DNum b) => if Z.eqb b 0 then DNaN else DNum (Z.rem a b)
  | _, _ => DNaN
  end.

(** [x[i]] on an array. *)
Definition js_index (x : Value) (i : nat) : Value :=
  match x with
  | VData (DArray _ elems) => default DUndefined (elems !! i)
  | _ => DUndefined
  end.

Inductive Completion : Type :=
| Normal (v : Value)
| Throw (e : Value).

(** What a user-written executor does with its two arguments when it is
    invoked: a sequence of calls to [resolve] / [reject], made at once or
    from a [setTimeout] callback, and possibly an exception at the end. *)
Inductive Call : Type :=
| CallResolve (v : Value)
| CallReject (v : Value)
| LaterResolve (ms : nat) (v : Value)
| LaterReject (ms : nat) (v : Value).

Record Outcome : Type := mkOutcome { calls : list Call; thrown : option Value }.

Definition succeeds_with (v : Data) : Outcome := mkOutcome [CallResolve v] None.
Definition fails_with (e : Value) : Outcome := mkOutcome [CallReject e] None.
Definition raises (e : Value) : Outcome := mkOutcome [] (Some e).

(** An executor fails by calling [reject] or by throwing. *)
Definition failure (by_throw : bool) (e : Value) : Outcome :=
  if by_throw then raises e else fails_with e.

Record Capability : Type := mkCap { cap_promise : nat; cap_flag : nat }.

Inductive ReactionKind : Type := Fulfill | Reject.

(** How a promise handed to a combinator comes to settle: it is settled
    already ([Promise.resolve], [Promise.reject]), it settles when a timer
    expires ([Promise.delayedResolve], [Promise.delayedReject]), or it never
    does ([new Promise(() => {})]). *)
Inductive Settlement : Type :=
| Success (v : Data)
| Failure (e : Value).

Inductive Source : Type :=
| Already (s : Settlement)
| After (ms : nat) (s : Settlement)
| Never.

Section Px.

Context {W : Type}.

(** ** User code (the callback typedefs of px.js:28-70) *)

Definition PromiseExecutor : Type := W -> W * Outcome.
Definition Continuation : Type := Value -> W -> W * Completion.
Definition Thunk : Type := W -> W * Completion.
Definition RetryTester : Type := Z -> Value -> W -> W * bool.
Definition BiTester : Type := Value -> Value -> W -> W * bool.

(** The executors a [DeferredPromise] can store. *)
Inductive Executor : Type :=
| ExUser (f : PromiseExecutor)
| ExResolve (value : Value)            (* res => res(value) *)
| ExReject (value : Value).            (* (res, rej) => rej(value) *)

(** ** Closures *)

Inductive Fn : Type :=
(* host: the resolving functions of a promise, and Promise.all's element
   function *)
| FnResolve (c : Capability)
| FnReject (c : Capability)
| FnAllElement (index called values remaining : nat) (c : Capability)
(* user continuations *)
| FnUser (f : Continuation)
(* DeferredPromise.retry *)
| FnRetryForward                                       (* x => x *)
| FnRetryAlways (supplier : Executor)                  (* () => resub() *)
| FnRetryTest (supplier : Executor) (fn : RetryTester) (tries : nat)
    (* x => fn(++tries, x) ? resub() : Promise.reject(x) *)
(* Promise.prototype.contains, Promise.compare *)
| FnContainsTest (bipredicate : BiTester) (value : Value)
| FnContainsEq (value : Value)
| FnCompare (comparator : BiTester)
(* Promise.prototype.timeout *)
| FnTimeoutObserve (success : nat)                     (* () => {success = true;} *)
| FnTimeoutFire (success this : nat) (c : Capability)
(* Promise.prototype.finally *)
| FnFinallyThen (onFinally : Thunk)
| FnFinallyCatch (onFinally : Thunk)
| FnReturn (res : Value)                               (* () => res *)
| FnRethrow (err : Value).                             (* () => { throw err; } *)

(** ** The host runtime *)

Inductive PState : Type :=
| Pending
| Fulfilled (v : Data)
| Rejected (e : Value).

Record Reaction : Type := mkReaction {
  on_fulfilled : option Fn;
  on_rejected : option Fn;
  derived : Capability }.

Record PromiseRec : Type := mkPromise {
  state : PState;
  reactions : list Reaction }.

Inductive Job : Type :=
| ReactionJob (kind : ReactionKind) (handler : option Fn) (c : Capability) (argument : Value)
| ThenableJob (p : nat) (thenable : nat).

Record Timer : Type := mkTimer { due : nat; callback : Fn; targ : Value }.

Record Runtime : Type := mkRuntime {
  promises : list PromiseRec;
  cells : list Data;
  microtasks : list Job;
  timers : list Timer;
  clock : nat;
  next_oid : nat;
  world : W }.

Definition set_promises (ps : list PromiseRec) (rt : Runtime) : Runtime :=
  mkRuntime ps (cells rt) (microtasks rt) (timers rt) (clock rt) (next_oid rt) (world rt).
Definition set_cells (cs : list Data) (rt : Runtime) : Runtime :=
  mkRuntime (promises rt) cs (microtasks rt) (timers rt) (clock rt) (next_oid rt) (world rt).
Definition set_microtasks (js : list Job) (rt : Runtime) : Runtime :=
  mkRuntime (promises rt) (cells rt) js (timers rt) (clock rt) (next_oid rt) (world rt).
Definition set_timers (ts : list Timer) (rt : Runtime) : Runtime :=
  mkRuntime (promises rt) (cells rt) (microtasks rt) ts (clock rt) (next_oid rt) (world rt).
Definition set_clock (t : nat) (rt : Runtime) : Runtime :=
  mkRuntime (promises rt) (cells rt) (microtasks rt) (timers rt) t (next_oid rt) (world rt).
Definition set_next_oid (n : nat) (rt : Runtime) : Runtime :=
  mkRuntime (promises rt) (cells rt) (microtasks rt) (timers rt) (clock rt) n (world rt).
Definition set_world (w : W) (rt : Runtime) : Runtime :=
  mkRuntime (promises rt) (cells rt) (microtasks rt) (timers rt) (clock rt) (next_oid rt) w.

Definition boot (w : W) : Runtime := mkRuntime [] [] [] [] 0 0 w.

Definition promise_state (p : nat) (rt : Runtime) : option PState :=
  state <$> promises rt !! p.

(** *** Cells *)

Definition alloc_cell (v : Data) (rt : Runtime) : nat * Runtime :=
  (length (cells rt), set_cells (cells rt ++ [v]) rt).
Definition read_cell (i : nat) (rt : Runtime) : Data :=
  default DUndefined (cells rt !! i).
Definition write_cell (i : nat) (v : Data) (rt : Runtime) : Runtime :=
  set_cells (<[i := v]> (cells rt)) rt.
Definition cell_true (i : nat) (rt : Runtime) : bool :=
  match read_cell i rt with DBool true => true | _ => false end.

(** *** Errors, microtasks, timers *)

Definition new_error (msg : string) (rt : Runtime) : Data * Runtime :=
  (DError (next_oid rt) msg, set_next_oid (S (next_oid rt)) rt).

Definition enqueue (j : Job) (rt : Runtime) : Runtime :=
  set_microtasks (microtasks rt ++ [j]) rt.

(** [setTimeout(fn, amount, arg)]: the host's timer is taken to be exact,
    the callback is due [amount] ms from now. *)
Definition setTimeout (fn : Fn) (amount : nat) (arg : Value) (rt : Runtime) : Runtime :=
  set_timers (timers rt ++ [mkTimer (clock rt + amount) fn arg]) rt.

(** *** Promise internals (ECMAScript 27.2.1) *)

Definition new_capability (rt : Runtime) : Capability * Runtime :=
  let p := length (promises rt) in
  let rt := set_promises (promises rt ++ [mkPromise Pending []]) rt in
  let (flag, rt) := alloc_cell (DBool false) rt in
  (mkCap p flag, rt).

Definition reaction_job (st : PState) (r : Reaction) : option Job :=
  match st with
  | Pending => None
  | Fulfilled v => Some (ReactionJob Fulfill (on_fulfilled r) (derived r) v)
  | Rejected e => Some (ReactionJob Reject (on_rejected r) (derived r) e)
  end.

(** FulfillPromise / RejectPromise: a promise leaves [Pending] once; its
    reactions are turned into jobs in registration order. *)
Definition settle (p : nat) (st : PState) (rt : Runtime) : Runtime :=
  match promises rt !! p with
  | Some (mkPromise Pending rs) =>
      set_microtasks (microtasks rt ++ omap (reaction_job st) rs)
        (set_promises (<[p := mkPromise st []]> (promises rt)) rt)
  | _ => rt
  end.

(** Promise Resolve Functions (ECMAScript 27.2.1.3.2): the first call of
    either resolving function wins; resolving a promise with itself rejects
    it; resolving it with a thenable makes it follow the thenable, through a
    job that calls the thenable's [then]; only a value that is not a
    thenable fulfils it.  Hence a fulfilment value is always [Data]. *)
Definition promise_resolve_fn (c : Capability) (resolution : Value) (rt : Runtime) : Runtime :=
  if cell_true (cap_flag c) rt then rt else
  let rt := write_cell (cap_flag c) (DBool true) rt in
  match resolution with
  | VPromise q =>
      if Nat.eqb q (cap_promise c) then
        let (e, rt) := new_error "Chaining cycle detected for promise" rt in
        settle (cap_promise c) (Rejected e) rt
      else enqueue (ThenableJob (cap_promise c) q) rt
  | VData d => settle (cap_promise c) (Fulfilled d) rt
  end.

(** Promise Reject Functions *)
Definition promise_reject_fn (c : Capability) (reason : Value) (rt : Runtime) : Runtime :=
  if cell_true (cap_flag c) rt then rt else
  settle (cap_promise c) (Rejected reason) (write_cell (cap_flag c) (DBool true) rt).

(** [p.then(onFulfilled, onRejected)] *)
Definition promise_then (p : nat) (onF onR : option Fn) (rt : Runtime) : nat * Runtime :=
  let (c, rt) := new_capability rt in
  let r := mkReaction onF onR c in
  match promises rt !! p with
  | Some (mkPromise Pending rs) =>
      (cap_promise c, set_promises (<[p := mkPromise Pending (rs ++ [r])]> (promises rt)) rt)
  | Some (mkPromise st _) =>
      (cap_promise c, set_microtasks (microtasks rt ++ option_list (reaction_job st r)) rt)
  | None => (cap_promise c, rt)
  end.

(** [Promise.resolve(v)] and [Promise.reject(e)] *)
Definition Promise_resolve (v : Value) (rt : Runtime) : nat * Runtime :=
  match v with
  | VPromise p => (p, rt)
  | VData _ => let (c, rt) := new_capability rt in (cap_promise c, promise_resolve_fn c v rt)
  end.

Definition Promise_reject (e : Value) (rt : Runtime) : nat * Runtime :=
  let (c, rt) := new_capability rt in (cap_promise c, promise_reject_fn c e rt).

(** [new Promise(executor)] for the executors a DeferredPromise stores. *)
Definition perform (c : Capability) (rt : Runtime) (a : Call) : Runtime :=
  match a with
  | CallResolve v => promise_resolve_fn c v rt
  | CallReject e => promise_reject_fn c e rt
  | LaterResolve ms v => setTimeout (FnResolve c) ms v rt
  | LaterReject ms e => setTimeout (FnReject c) ms e rt
  end.

Definition run_executor (ex : Executor) (c : Capability) (rt : Runtime) : Runtime * option Value :=
  match ex with
  | ExUser f =>
      let (w, out) := f (world rt) in
      (foldl (perform c) (set_world w rt) (calls out), thrown out)
  | ExResolve value => (promise_resolve_fn c value rt, None)
  | ExReject value => (promise_reject_fn c value rt, None)
  end.

Definition new_Promise (ex : Executor) (rt : Runtime) : nat * Runtime :=
  let (c, rt) := new_capability rt in
  let (rt, exn) := run_executor ex c rt in
  match exn with
  | Some e => (cap_promise c, promise_reject_fn c e rt)
  | None => (cap_promise c, rt)
  end.

(** [Promise.all(items)] over native promises (PerformPromiseAll): the
    values array and the count of outstanding elements are shared by the
    element functions. *)
Definition all_element (index called values remaining : nat) (c : Capability)
    (x : Value) (rt : Runtime) : Runtime :=
  (* installed as onFulfilled only, so [x] is a fulfilment value *)
  let x := match x with VData d => d | VPromise _ => DUndefined end in
  if cell_true called rt then rt else
  let rt := write_cell called (DBool true) rt in
  let vs := match read_cell values rt with DArray _ elems => elems | _ => [] end in
  let rt := write_cell values (DArray 0 (<[index := x]> vs)) rt in
  match read_cell remaining rt with
  | DNum n =>
      let rt := write_cell remaining (DNum (n - 1)) rt in
      if Z.eqb (n - 1) 0 then
        let arr := DArray (next_oid rt) (<[index := x]> vs) in
        promise_resolve_fn c arr (set_next_oid (S (next_oid rt)) rt)
      else rt
  | _ => rt
  end.

Definition all_register (values remaining : nat) (c : Capability)
    (acc : nat * Runtime) (next : nat) : nat * Runtime :=
  let (index, rt) := acc in
  let vs := match read_cell values rt with DArray _ elems => elems | _ => [] end in
  let rt := write_cell values (DArray 0 (vs ++ [DUndefined])) rt in
  let (called, rt) := alloc_cell (DBool false) rt in
  let rt := match read_cell remaining rt with
            | DNum n => write_cell remaining (DNum (n + 1)) rt
            | _ => rt
            end in
  let (_, rt) := promise_then next (Some (FnAllElement index called values remaining c))
                   (Some (FnReject c)) rt in
  (S index, rt).

Definition Promise_all (items : list nat) (rt : Runtime) : nat * Runtime :=
  let (c, rt) := new_capability rt in
  let (values, rt) := alloc_cell (DArray 0 []) rt in
  let (remaining, rt) := alloc_cell (DNum 1) rt in
  let (_, rt) := foldl (all_register values remaining c) (0, rt) items in
  match read_cell remaining rt with
  | DNum n =>
      let rt := write_cell remaining (DNum (n - 1)) rt in
      if Z.eqb (n - 1) 0 then
        let arr := DArray (next_oid rt) [] in
        (cap_promise c, promise_resolve_fn c arr (set_next_oid (S (next_oid rt)) rt))
      else (cap_promise c, rt)
  | _ => (cap_promise c, rt)
  end.

(** ** px.js *)

(** *** class DeferredPromise (px.js:79-209) *)

Record DeferredPromise : Type := mkDeferred { _supplier : Executor }.

(* px.js:91 *)
Definition DeferredPromise_resolve (value : Value) : DeferredPromise :=
  mkDeferred (ExResolve value).

(* px.js:102 *)
Definition DeferredPromise_reject (value : Value) : DeferredPromise :=
  mkDeferred (ExReject value).

(* px.js:115 *)
Definition DeferredPromise_fromCallable (executor : Thunk) (rt : Runtime)
    : DeferredPromise * Runtime :=
  let (w, result) := executor (world rt) in
  match result with
  | Throw e => (DeferredPromise_reject e, set_world w rt)
  | Normal result => (DeferredPromise_resolve result, set_world w rt)
  end.

(* px.js:130 *)
Definition DeferredPromise_then (this : DeferredPromise) (res rej : option Fn)
    (rt : Runtime) : nat * Runtime :=
  let (p, rt) := new_Promise (_supplier this) rt in
  promise_then p res rej rt.

(* px.js:139; the native catch(rej) is then(undefined, rej) *)
Definition Promise_catch (this : nat) (rej : option Fn) (rt : Runtime) : nat * Runtime :=
  promise_then this None rej rt.

Definition DeferredPromise_catch (this : DeferredPromise) (rej : option Fn)
    (rt : Runtime) : nat * Runtime :=
  let (p, rt) := new_Promise (_supplier this) rt in
  Promise_catch p rej rt.

(* px.js:477; the file installs it on Promise.prototype unconditionally *)
Definition Promise_finally (this : nat) (onFinally : Thunk) (rt : Runtime) : nat * Runtime :=
  promise_then this (Some (FnFinallyThen onFinally)) (Some (FnFinallyCatch onFinally)) rt.

(* px.js:150 *)
Definition DeferredPromise_finally (this : DeferredPromise) (fin : Thunk)
    (rt : Runtime) : nat * Runtime :=
  let (p, rt) := new_Promise (_supplier this) rt in
  Promise_finally p fin rt.

(* px.js:206 *)
Definition DeferredPromise_toPromise (this : DeferredPromise) (rt : Runtime) : nat * Runtime :=
  new_Promise (_supplier this) rt.

(* px.js:177, the [resub] of the branch without a tester *)
Definition resub (supplier : Executor) (rt : Runtime) : nat * Runtime :=
  let (p, rt) := new_Promise supplier rt in
  promise_then p (Some FnRetryForward) (Some (FnRetryAlways supplier)) rt.

(* px.js:170, the [resub] of the branch with a tester *)
Definition resub_test (supplier : Executor) (fn : RetryTester) (tries : nat)
    (rt : Runtime) : nat * Runtime :=
  let (p, rt) := new_Promise supplier rt in
  promise_then p (Some FnRetryForward) (Some (FnRetryTest supplier fn tries)) rt.

(* px.js:166 *)
Definition DeferredPromise_retry (this : DeferredPromise) (fn : option RetryTester)
    (rt : Runtime) : nat * Runtime :=
  let supplier := _supplier this in
  match fn with
  | Some fn =>
      let (tries, rt) := alloc_cell (DNum 0) rt in
      resub_test supplier fn tries rt
  | None => resub supplier rt
  end.

(** *** class PublishedPromise (px.js:218-290) *)

Record PublishedPromise : Type := mkPublished {
  _promise : nat;
  _resolve : Fn;
  _reject : Fn }.

(* px.js:219 *)
Definition PublishedPromise_new (fn : option Executor) (rt : Runtime)
    : PublishedPromise * Runtime :=
  let (c, rt) := new_capability rt in
  let this := mkPublished (cap_promise c) (FnResolve c) (FnReject c) in
  match fn with
  | Some fn =>
      let (rt, exn) := run_executor fn c rt in
      match exn with
      | Some e => (this, promise_reject_fn c e rt)
      | None => (this, rt)
      end
  | None => (this, rt)
  end.

(* px.js:257-289 *)
Definition PublishedPromise_then (this : PublishedPromise) (res rej : option Fn)
    (rt : Runtime) : nat * Runtime :=
  promise_then (_promise this) res rej rt.
Definition PublishedPromise_catch (this : PublishedPromise) (rej : option Fn)
    (rt : Runtime) : nat * Runtime :=
  Promise_catch (_promise this) rej rt.
Definition PublishedPromise_finally (this : PublishedPromise) (fin : Thunk)
    (rt : Runtime) : nat * Runtime :=
  Promise_finally (_promise this) fin rt.
Definition PublishedPromise_toPromise (this : PublishedPromise) : nat := _promise this.

(** *** Extensions of Promise (px.js:314-571) *)

(* px.js:314 *)
Definition Promise_contains (this : nat) (value : Value) (bipredicate : option BiTester)
    (rt : Runtime) : nat * Runtime :=
  match bipredicate with
  | Some bipredicate => promise_then this (Some (FnContainsTest bipredicate value)) None rt
  | None => promise_then this (Some (FnContainsEq value)) None rt
  end.

(* px.js:360 *)
Definition Promise_compare (a b : nat) (comparator : BiTester) (rt : Runtime) : nat * Runtime :=
  let (all, rt) := Promise_all [a; b] rt in
  promise_then all (Some (FnCompare comparator)) None rt.

(* px.js:379 *)
Definition Promise_equals (a b : nat) (rt : Runtime) : nat * Runtime :=
  Promise_compare a b (fun x y w => (w, strict_eq x y)) rt.

(* px.js:425 *)
Definition Promise_publish (fn : option Executor) (rt : Runtime) : PublishedPromise * Runtime :=
  PublishedPromise_new fn rt.

(* px.js:438 *)
Definition Promise_timer (amount : nat) (rt : Runtime) : nat * Runtime :=
  let (c, rt) := new_capability rt in
  (cap_promise c, setTimeout (FnResolve c) amount (DNum 0) rt).

(* px.js:454 *)
Definition Promise_timeout (this : nat) (amount : nat) (rt : Runtime) : nat * Runtime :=
  let (success, rt) := alloc_cell (DBool false) rt in
  let (_, rt) := promise_then this (Some (FnTimeoutObserve success)) None rt in
  let (c, rt) := new_capability rt in
  (cap_promise c, setTimeout (FnTimeoutFire success this c) amount DUndefined rt).

(* px.js:505 *)
Definition Promise_fromCallable (executor : Thunk) (rt : Runtime) : nat * Runtime :=
  let (w, result) := executor (world rt) in
  match result with
  | Throw e => Promise_reject e (set_world w rt)
  | Normal result => Promise_resolve result (set_world w rt)
  end.

(* px.js:530 *)
Definition Promise_fromCallableDeferred (executor : Thunk) (rt : Runtime)
    : DeferredPromise * Runtime :=
  DeferredPromise_fromCallable executor rt.

(* px.js:547 *)
Definition Promise_delayedResolve (value : Value) (amount : nat) (rt : Runtime) : nat * Runtime :=
  let (c, rt) := new_capability rt in
  (cap_promise c, setTimeout (FnResolve c) amount value rt).

(* px.js:566 *)
Definition Promise_delayedReject (value : Value) (amount : nat) (rt : Runtime) : nat * Runtime :=
  let (c, rt) := new_capability rt in
  (cap_promise c, setTimeout (FnReject c) amount value rt).

(** ** Calling a closure *)

(** The body of the finalizer handlers (px.js:481, 483):
    [Promise.resolve(onFinally()).then(after)]. *)
Definition finally_body (onFinally : Thunk) (after : Fn) (rt : Runtime) : Runtime * Completion :=
  let (w, r) := onFinally (world rt) in
  match r with
  | Throw e => (set_world w rt, Throw e)
  | Normal v =>
      let (q, rt) := Promise_resolve v (set_world w rt) in
      let (d, rt) := promise_then q (Some after) None rt in
      (rt, Normal (VPromise d))
  end.

Definition call_fn (f : Fn) (x : Value) (rt : Runtime) : Runtime * Completion :=
  match f with
  | FnResolve c => (promise_resolve_fn c x rt, Normal DUndefined)
  | FnReject c => (promise_reject_fn c x rt, Normal DUndefined)
  | FnAllElement index called values remaining c =>
      (all_element index called values remaining c x rt, Normal DUndefined)
  | FnUser f => let (w, r) := f x (world rt) in (set_world w rt, r)
  | FnRetryForward => (rt, Normal x)
  | FnRetryAlways supplier =>
      let (p, rt) := resub supplier rt in (rt, Normal (VPromise p))
  | FnRetryTest supplier fn tries =>
      let n := match read_cell tries rt with DNum n => (n + 1)%Z | _ => 1%Z end in
      let rt := write_cell tries (DNum n) rt in
      let (w, again) := fn n x (world rt) in
      let rt := set_world w rt in
      if again then
        let (p, rt) := resub_test supplier fn tries rt in (rt, Normal (VPromise p))
      else
        let (p, rt) := Promise_reject x rt in (rt, Normal (VPromise p))
  | FnContainsTest bipredicate value =>
      let (w, b) := bipredicate x value (world rt) in (set_world w rt, Normal (DBool b))
  | FnContainsEq value => (rt, Normal (DBool (strict_eq x value)))
  | FnCompare comparator =>
      let (w, b) := comparator (js_index x 0) (js_index x 1) (world rt) in
      (set_world w rt, Normal (DBool b))
  | FnTimeoutObserve success => (write_cell success (DBool true) rt, Normal DUndefined)
  | FnTimeoutFire success this c =>
      if cell_true success rt then
        (promise_resolve_fn c (VPromise this) rt, Normal DUndefined)
      else
        let (e, rt) := new_error "Promise TimeoutException" rt in
        (promise_reject_fn c e rt, Normal DUndefined)
  | FnFinallyThen onFinally => finally_body onFinally (FnReturn x) rt
  | FnFinallyCatch onFinally => finally_body onFinally (FnRethrow x) rt
  | FnReturn res => (rt, Normal res)
  | FnRethrow err => (rt, Throw err)
  end.

(** ** Jobs and the event loop *)

(** PromiseReactionJob and PromiseResolveThenableJob *)
Definition run_job (j : Job) (rt : Runtime) : Runtime :=
  match j with
  | ReactionJob kind handler c argument =>
      let (rt, result) :=
        match handler with
        | Some h => call_fn h argument rt
        | None => (rt, match kind with Fulfill => Normal argument | Reject => Throw argument end)
        end in
      match result with
      | Normal v => promise_resolve_fn c v rt
      | Throw e => promise_reject_fn c e rt
      end
  | ThenableJob p thenable =>
      let (flag, rt) := alloc_cell (DBool false) rt in
      let c := mkCap p flag in
      snd (promise_then thenable (Some (FnResolve c)) (Some (FnReject c)) rt)
  end.

(** The timer that fires next: the earliest due time, in registration order
    among equals. *)
Fixpoint earliest (ts : list Timer) : option nat :=
  match ts with
  | [] => None
  | t :: ts =>
      match earliest ts with
      | Some d => Some (Nat.min (due t) d)
      | None => Some (due t)
      end
  end.

Fixpoint take_due (d : nat) (ts : list Timer) : option (Timer * list Timer) :=
  match ts with
  | [] => None
  | t :: ts =>
      if Nat.eqb (due t) d then Some (t, ts)
      else match take_due d ts with
           | Some (u, rest) => Some (u, t :: rest)
           | None => None
           end
  end.

(** One turn of the event loop, up to the time [horizon]: the oldest
    microtask if there is one, else the next timer that is due by then. *)
Definition step (horizon : nat) (rt : Runtime) : option Runtime :=
  match microtasks rt with
  | j :: js => Some (run_job j (set_microtasks js rt))
  | [] =>
      match earliest (timers rt) with
      | Some d =>
          if Nat.leb d horizon then
            match take_due d (timers rt) with
            | Some (t, rest) =>
                Some (fst (call_fn (callback t) (targ t)
                             (set_clock (Nat.max (clock rt) d) (set_timers rest rt))))
            | None => None
            end
          else None
      | None => None
      end
  end.

Fixpoint run (fuel : nat) (horizon : nat) (rt : Runtime) : Runtime :=
  match fuel with
  | 0 => rt
  | S fuel =>
      match step horizon rt with
      | Some rt' => run fuel horizon rt'
      | None => rt
      end
  end.

(** [rt] has nothing left to do before or at time [horizon]. *)
Definition idle (horizon : nat) (rt : Runtime) : Prop := step horizon rt = None.

(** Running from [rt] up to time [horizon] ends in [rt']. *)
Definition runs_to (horizon : nat) (rt rt' : Runtime) : Prop :=
  exists fuel, run fuel horizon rt = rt' /\ idle horizon rt'.

(** *** PublishedPromise.resolve and .reject (px.js:237, 248) *)

Definition PublishedPromise_resolve (this : PublishedPromise) (value : Value)
    (rt : Runtime) : Runtime :=
  fst (call_fn (_resolve this) value rt).

Definition PublishedPromise_reject (this : PublishedPromise) (value : Value)
    (rt : Runtime) : Runtime :=
  fst (call_fn (_reject this) value rt).

(** ** Scenarios *)

Definition settles (src : Source) : option Settlement :=
  match src with
  | Already s | After _ s => Some s
  | Never => None
  end.

Definition settles_at (src : Source) : nat :=
  match src with
  | After ms _ => ms
  | _ => 0
  end.

(** [a] settles no later than [b] does. *)
Definition no_later (a b : Source) : bool :=
  match a, b with
  | Already _, _ => true
  | After m _, After n _ => Nat.leb m n
  | After _ _, Already _ => false
  | After _ _, Never => true
  | Never, _ => false
  end.


Definition outcome (s : Settlement) : PState :=
  match s with
  | Success v => Fulfilled v
  | Failure e => Rejected e
  end.

(** A user executor that settles at once, or after [ms]. *)
Definition now (s : Settlement) : Outcome :=
  match s with
  | Success v => succeeds_with v
  | Failure e => fails_with e
  end.


(** The error [new Error('Promise TimeoutException')] of px.js:463, the
    first object made in a scenario. *)
Definition timeout_error : Data := DError 0 "Promise TimeoutException".

Definition is_nan (d : Data) : bool :=
  match d with DNaN => true | _ => false end.

(** What a finalizer does when it is called: it returns a value that is not
    a promise, it throws, or it returns a promise. *)
Inductive Finalizer : Type :=
| Returns (u : Data)
| Throws (e : Value)
| Awaits (f : Source).

Definition awaited_at (r : Finalizer) : nat :=
  match r with
  | Awaits f => settles_at f
  | _ => 0
  end.

(** The state [finally] leaves its result in, for a source settled as [s]. *)
Definition finalized (s : Settlement) (r : Finalizer) : PState :=
  match r with
  | Returns _ => outcome s
  | Throws e => Rejected e
  | Awaits f =>
      match settles f with
      | Some (Success _) => outcome s
      | Some (Failure e) => Rejected e
      | None => Pending
      end
  end.

Inductive External : Type :=
| CallsResolve (v : Value)
| CallsReject (e : Value).


Definition source (src : Source) (rt : Runtime) : nat * Runtime :=
  match src with
  | Already (Success v) => Promise_resolve v rt
  | Already (Failure e) => Promise_reject e rt
  | After ms (Success v) => Promise_delayedResolve v ms rt
  | After ms (Failure e) => Promise_delayedReject e ms rt
  | Never => let (c, rt) := new_capability rt in (cap_promise c, rt)
  end.

(** A continuation that records the value it is handed, [x => { record(x); }]. *)
Definition observe (record : Value -> W -> W) : Continuation :=
  fun x w => (record x w, Normal DUndefined).

(** One invocation of an executor, as seen by the world. *)
Definition invoke (ex : Executor) (w : W) : W :=
  match ex with
  | ExUser f => fst (f w)
  | _ => w
  end.

(** The timer [t] fires, the others stay. *)
Definition fire (t : Timer) (rest : list Timer) (rt : Runtime) : Runtime :=
  fst (call_fn (callback t) (targ t)
         (set_clock (Nat.max (clock rt) (due t)) (set_timers rest rt))).

(** [(x, y) => x % y === 0] *)
Definition divides : BiTester :=
  fun x y w => (w, strict_eq (js_rem x y) (DNum 0)).

(** What a finalizer hands back when it is called; the promise of [Awaits]
    is made beforehand. *)
Definition finalizer (r : Finalizer) (rt : Runtime) : Completion * Runtime :=
  match r with
  | Returns u => (Normal u, rt)
  | Throws e => (Throw e, rt)
  | Awaits f => let (p, rt) := source f rt in (Normal (VPromise p), rt)
  end.

(** Calls made on a PublishedPromise from outside. *)
Definition external (this : PublishedPromise) (rt : Runtime) (c : External) : Runtime :=
  match c with
  | CallsResolve v => PublishedPromise_resolve this v rt
  | CallsReject e => PublishedPromise_reject this e rt
  end.

(** ** Invariants *)

(** Settled promises keep their state from [rt] to [rt']. *)
Definition stays (rt rt' : Runtime) : Prop :=
  forall p st, promise_state p rt = Some st -> st <> Pending ->
               promise_state p rt' = Some st.

(** The cells of [rt] are still there in [rt'], with what they hold. *)
Definition keeps (rt rt' : Runtime) : Prop := cells rt `prefix_of` cells rt'.

(** The promises of a [retry()] without a tester are of two kinds, told
    apart by a tag per promise: those returned by [resub] ([true]), which
    must never be rejected, and the others ([false]): the promises made from
    the supplier, and the ones the host derives when it adopts a thenable. *)
Definition Resub (gs : list bool) (p : nat) : Prop := gs !! p = Some true.
Definition Other (gs : list bool) (p : nat) : Prop := gs !! p = Some false.

(** A reaction on [p] is either the pair of handlers installed by [resub],
    deriving a [resub] result, or the pair of resolving functions installed
    when some promise [c] adopts [p]; [c] can only be a [resub] result if
    [p] is one. *)
Definition reaction_ok (gs : list bool) (p : nat) (r : Reaction) : Prop :=
  match on_fulfilled r, on_rejected r with
  | Some FnRetryForward, Some (FnRetryAlways _) => Resub gs (cap_promise (derived r))
  | Some (FnResolve c), Some (FnReject c') =>
      c' = c /\ Other gs (cap_promise (derived r)) /\
      is_Some (gs !! cap_promise c) /\ (Resub gs (cap_promise c) -> Resub gs p)
  | _, _ => False
  end.

Definition job_ok (gs : list bool) (j : Job) : Prop :=
  match j with
  | ReactionJob Fulfill (Some FnRetryForward) d (VData _) => Resub gs (cap_promise d)
  | ReactionJob Reject (Some (FnRetryAlways _)) d _ => Resub gs (cap_promise d)
  | ReactionJob Fulfill (Some (FnResolve c)) d (VData _) =>
      Other gs (cap_promise d) /\ is_Some (gs !! cap_promise c)
  | ReactionJob Reject (Some (FnReject c)) d _ =>
      Other gs (cap_promise d) /\ Other gs (cap_promise c)
  | ThenableJob p q => is_Some (gs !! p) /\ (Resub gs p -> Resub gs q)
  | _ => False
  end.

Definition timer_ok (gs : list bool) (t : Timer) : Prop :=
  match callback t with
  | FnResolve c | FnReject c => Other gs (cap_promise c)
  | _ => False
  end.

Definition promise_ok (gs : list bool) (p : nat) (rec : PromiseRec) : Prop :=
  (Resub gs p -> forall e, state rec <> Rejected e) /\
  Forall (reaction_ok gs p) (reactions rec).

Record Inv (gs : list bool) (rt : Runtime) : Prop := mkInv {
  inv_len : length gs = length (promises rt);
  inv_heap : forall p rec, promises rt !! p = Some rec -> promise_ok gs p rec;
  inv_jobs : Forall (job_ok gs) (microtasks rt);
  inv_timers : Forall (timer_ok gs) (timers rt) }.

(** What a promise may be resolved with: anything at all if it is not a
    [resub] result; a [resub] result only takes data, or another [resub]
    result. *)
Definition resolve_ok (gs : list bool) (c : Capability) (v : Value) : Prop :=
  match v with
  | VData _ => True
  | VPromise q =>
      Other gs (cap_promise c) \/ (Resub gs (cap_promise c) /\ Resub gs q /\ q <> cap_promise c)
  end.

(** ** A [retry()] that never ends *)

(** A supplier that fails at once, by rejecting or by throwing, every time
    it is instantiated. *)
Definition always_fails (ex : Executor) : Prop :=
  match ex with
  | ExUser f => forall w, exists t e, snd (f w) = failure t e
  | ExReject _ => True
  | ExResolve _ => False
  end.

(** With such a supplier the promises of a [retry()] without a tester are
    of two kinds, told apart by a tag per promise: those that are pending
    and stay so ([true]), and the ones made from the supplier, which are
    rejected ([false]). *)
Definition spin_promise (g : bool) (rec : PromiseRec) : Prop :=
  if g then state rec = Pending else exists e, state rec = Rejected e.

(** The jobs are the failure handler of [resub], deriving a pending
    promise, and the adoption of a pending promise. *)
Definition spin_job (ex : Executor) (gs : list bool) (j : Job) : Prop :=
  match j with
  | ReactionJob Reject (Some (FnRetryAlways supplier)) d _ =>
      supplier = ex /\ gs !! cap_promise d = Some true
  | ThenableJob _ q => gs !! q = Some true
  | _ => False
  end.

Definition is_retry_job (j : Job) : Prop :=
  match j with
  | ReactionJob Reject (Some (FnRetryAlways _)) _ _ => True
  | _ => False
  end.

Record Spin (ex : Executor) (gs : list bool) (rt : Runtime) : Prop := mkSpin {
  spin_len : length gs = length (promises rt);
  spin_heap : forall p g rec,
    gs !! p = Some g -> promises rt !! p = Some rec -> spin_promise g rec;
  spin_jobs : Forall (spin_job ex gs) (microtasks rt);
  spin_busy : Exists is_retry_job (microtasks rt) }.

End Px.

(** An executor over a counter: each call adds one. *)
Definition counting (result : Completion) : @Thunk nat := fun n => (S n, result).

(** A supplier that fails twice and then succeeds with 7; the world counts
    its instantiations. *)
Definition flaky : @PromiseExecutor nat :=
  fun n => (S n, match n with
                 | 0 => fails_with (DStr "first")
                 | 1 => raises (DStr "second")
                 | _ => succeeds_with (DNum 7)
                 end).

(** A supplier that always fails, with the number of the attempt, and a
    tester that allows one more attempt only; the world counts the calls of
    each. *)
Definition failing : @PromiseExecutor (nat * nat) :=
  fun '(a, b) => ((S a, b), fails_with (DNum (Z.of_nat (S a)))).

Definition twice_only : @RetryTester (nat * nat) :=
  fun n _ '(a, b) => ((a, S b), Z.ltb n 2).

(** Suppliers that settle with 1, at once and after 4 ms. *)
Definition settles_now : @PromiseExecutor nat :=
  fun n => (S n, now (Success (DNum 1))).


Section Loop.

Context {W : Type}.
Implicit Types (rt : @Runtime W) (h : nat).

(** ** The event loop, step by step *)

Lemma runs_to_idle h rt : step h rt = None -> runs_to h rt rt.
Proof. intros H. exists 0. split; [reflexivity | exact H]. Qed.

Lemma runs_to_step h rt rt1 rt2 rt' :
  step h rt = Some rt1 -> rt1 = rt2 -> runs_to h rt2 rt' -> runs_to h rt rt'.
Proof. intros H -> [n [Hr Hi]]. exists (S n). simpl. rewrite H. split; assumption. Qed.

Lemma run_idle fuel h rt : idle h rt -> run fuel h rt = rt.
Proof. intros H. destruct fuel; simpl; [reflexivity|]. unfold idle in H. by rewrite H. Qed.

Lemma run_add a b h rt : run (a + b) h rt = run b h (run a h rt).
Proof.
  revert rt. induction a as [|a IH]; intros rt; simpl; [reflexivity|].
  destruct (step h rt) as [rt1|] eqn:E; [apply IH|].
  symmetry. by apply run_idle.
Qed.

(** Once the loop has come to rest, more fuel changes nothing. *)
Lemma runs_to_stable h rt rt' :
  runs_to h rt rt' -> exists n, forall fuel, n <= fuel -> run fuel h rt = rt'.
Proof.
  intros [n [Hr Hi]]. exists n. intros fuel Hle.
  replace fuel with (n + (fuel - n)) by lia.
  rewrite run_add, Hr. by apply run_idle.
Qed.

Lemma step_job h rt j js :
  microtasks rt = j :: js -> step h rt = Some (run_job j (set_microtasks js rt)).
Proof. intros H. unfold step. by rewrite H. Qed.

Lemma step_fire1 h rt t :
  microtasks rt = [] -> timers rt = [t] -> due t <= h ->
  step h rt = Some (fire t [] rt).
Proof.
  intros Hm Ht Hd. unfold step, fire. rewrite Hm, Ht. simpl.
  rewrite (proj2 (Nat.leb_le _ _) Hd), Nat.eqb_refl. reflexivity.
Qed.

Lemma step_fire2_fst h rt t1 t2 :
  microtasks rt = [] -> timers rt = [t1; t2] -> due t1 <= due t2 -> due t1 <= h ->
  step h rt = Some (fire t1 [t2] rt).
Proof.
  intros Hm Ht Ho Hd. unfold step, fire. rewrite Hm, Ht. simpl.
  rewrite Nat.min_l by assumption.
  rewrite (proj2 (Nat.leb_le _ _) Hd), Nat.eqb_refl. reflexivity.
Qed.

Lemma step_fire2_snd h rt t1 t2 :
  microtasks rt = [] -> timers rt = [t1; t2] -> due t2 < due t1 -> due t2 <= h ->
  step h rt = Some (fire t2 [t1] rt).
Proof.
  intros Hm Ht Ho Hd. unfold step, fire. rewrite Hm, Ht. simpl.
  rewrite Nat.min_r by lia.
  rewrite (proj2 (Nat.leb_le _ _) Hd).
  rewrite (proj2 (Nat.eqb_neq _ _)) by lia. rewrite Nat.eqb_refl. reflexivity.
Qed.

Lemma step_wait1 h rt t :
  microtasks rt = [] -> timers rt = [t] -> h < due t -> step h rt = None.
Proof.
  intros Hm Ht Hd. unfold step. rewrite Hm, Ht. simpl.
  rewrite (proj2 (Nat.leb_gt _ _)) by lia. reflexivity.
Qed.

Lemma step_wait2 h rt t1 t2 :
  microtasks rt = [] -> timers rt = [t1; t2] -> h < due t1 -> h < due t2 ->
  step h rt = None.
Proof.
  intros Hm Ht H1 H2. unfold step. rewrite Hm, Ht. simpl.
  rewrite (proj2 (Nat.leb_gt _ _)) by lia. reflexivity.
Qed.

End Loop.

(** Symbolic execution of the event loop: each turn is computed, and the
    turns that depend on how two times compare are settled by [lia].  A
    turn that calls user code is first reduced up to that call, which is
    then replaced by what the hypothesis [H] says it returns. *)
Ltac crunch := vm_compute; reflexivity.
Ltac side := first [reflexivity | simpl; lia].
Ltac setup :=
  repeat (lazymatch goal with |- (let (_, _) := ?t in _) =>
            let t' := eval vm_compute in t in change t with t'; cbv beta iota end).
Ltac tick :=
  lazymatch goal with
  | |- runs_to _ (mkRuntime _ _ (_ :: _) _ _ _ _) _ =>
      eapply runs_to_step; [ apply step_job; reflexivity | crunch | ]
  | |- runs_to _ (mkRuntime _ _ [] (_ :: _) _ _ _) _ =>
      eapply runs_to_step;
      [ first [ eapply step_fire1; side
              | eapply step_fire2_fst; side
              | eapply step_fire2_snd; side ]
      | crunch | ]
  end.
Ltac halt :=
  lazymatch goal with
  | |- runs_to _ (mkRuntime _ _ [] [] _ _ _) _ => eapply runs_to_idle; reflexivity
  | |- runs_to _ (mkRuntime _ _ [] _ _ _ _) _ =>
      eapply runs_to_idle; first [ eapply step_wait1; side | eapply step_wait2; side ]
  end.
Ltac play := repeat tick; halt.

Ltac focus_call H :=
  lazymatch type of H with
  | ?g ?a ?b ?c = _ =>
      match goal with |- context [g ?x ?y ?z] =>
        let x' := eval vm_compute in x in
        let y' := eval vm_compute in y in
        let z' := eval vm_compute in z in
        change (g x y z) with (g x' y' z') end
  | ?g ?a = _ =>
      match goal with |- context [g ?x] =>
        let x' := eval vm_compute in x in change (g x) with (g x') end
  end.
Ltac expose :=
  match goal with |- ?lhs = _ =>
    let t := eval lazy head in lhs in change lhs with t end.
Ltac use H := expose; focus_call H; rewrite H.
Ltac start_by H :=
  lazymatch goal with |- (let (_, _) := ?t in _) =>
    let E := fresh in
    eassert (E : t = _) by (use H; crunch); rewrite E; clear E; cbv beta iota end.
Ltac calls_user f :=
  lazymatch f with
  | FnRetryAlways (ExUser _) => idtac
  | FnRetryTest _ _ _ => idtac
  | FnContainsTest _ _ => idtac
  | FnCompare _ => idtac
  | FnFinallyThen _ => idtac
  | FnFinallyCatch _ => idtac
  end.
Ltac tick_by H :=
  lazymatch goal with
  | |- runs_to _ (mkRuntime _ _ (ReactionJob _ (Some ?f) _ _ :: _) _ _ _ _) _ =>
      calls_user f;
      eapply runs_to_step; [ apply step_job; reflexivity | use H; crunch | ]
  end.
Ltac tick_by2 H1 H2 :=
  eapply runs_to_step; [ apply step_job; reflexivity | use H1; use H2; crunch | ].
Ltac play_by H := repeat first [tick_by H | tick]; halt.

(** A theorem about a scenario, used on that same scenario. *)
Ltac same_scenario H :=
  revert H;
  repeat (lazymatch goal with
          | |- _ -> (let (_, _) := ?t in _) => destruct t as [? ?]
          end);
  intros H.

Section Facts.

Context {W : Type}.
Implicit Types (rt : @Runtime W) (w : W) (h : nat) (gs : list bool).
Implicit Types (r : @Reaction W) (j : @Job W) (t : @Timer W) (rec : @PromiseRec W).
Implicit Types (rs : list (@Reaction W)) (ts : list (@Timer W)).

(** ** What the host operations leave alone *)

Lemma world_settle p st rt : world (settle p st rt) = world rt.
Proof. unfold settle. destruct (promises rt !! p) as [[[] ?]|]; reflexivity. Qed.

Lemma length_settle p st rt : length (promises (settle p st rt)) = length (promises rt).
Proof.
  unfold settle. destruct (promises rt !! p) as [[[] ?]|]; simpl; try reflexivity.
  apply length_insert.
Qed.

Lemma world_resolve c v rt : world (promise_resolve_fn c v rt) = world rt.
Proof.
  unfold promise_resolve_fn. destruct (cell_true _ _); [reflexivity|].
  destruct v; simpl; rewrite ?world_settle; try reflexivity.
  destruct (Nat.eqb _ _); simpl; rewrite ?world_settle; reflexivity.
Qed.

Lemma length_resolve c v rt :
  length (promises (promise_resolve_fn c v rt)) = length (promises rt).
Proof.
  unfold promise_resolve_fn. destruct (cell_true _ _); [reflexivity|].
  destruct v; simpl; rewrite ?length_settle; try reflexivity.
  destruct (Nat.eqb _ _); simpl; rewrite ?length_settle; reflexivity.
Qed.

Lemma world_reject c v rt : world (promise_reject_fn c v rt) = world rt.
Proof.
  unfold promise_reject_fn. destruct (cell_true _ _); [reflexivity|].
  by rewrite world_settle.
Qed.

Lemma length_reject c v rt :
  length (promises (promise_reject_fn c v rt)) = length (promises rt).
Proof.
  unfold promise_reject_fn. destruct (cell_true _ _); [reflexivity|].
  by rewrite length_settle.
Qed.

Lemma world_perform c rt a : world (perform c rt a) = world rt.
Proof. destruct a; simpl; rewrite ?world_resolve, ?world_reject; reflexivity. Qed.

Lemma length_perform c rt a : length (promises (perform c rt a)) = length (promises rt).
Proof. destruct a; simpl; rewrite ?length_resolve, ?length_reject; reflexivity. Qed.

Lemma world_performs c l rt : world (foldl (perform c) rt l) = world rt.
Proof.
  revert rt. induction l as [|a l IH]; intros rt; simpl; [reflexivity|].
  by rewrite IH, world_perform.
Qed.

Lemma length_performs c l rt :
  length (promises (foldl (perform c) rt l)) = length (promises rt).
Proof.
  revert rt. induction l as [|a l IH]; intros rt; simpl; [reflexivity|].
  by rewrite IH, length_perform.
Qed.

(** [new Promise(executor)] allocates the next promise and runs the
    executor once, there and then. *)
Lemma new_Promise_spec ex rt :
  fst (new_Promise ex rt) = length (promises rt) /\
  world (snd (new_Promise ex rt)) = invoke ex (world rt) /\
  length (promises (snd (new_Promise ex rt))) = S (length (promises rt)).
Proof.
  unfold new_Promise, new_capability, alloc_cell. simpl.
  destruct ex as [f| |]; simpl.
  - destruct (f (world rt)) as [w out]. simpl.
    destruct (thrown out); simpl;
      rewrite ?world_reject, ?length_reject, ?world_performs, ?length_performs; simpl;
      rewrite ?length_app; simpl; repeat split; lia.
  - rewrite world_resolve, length_resolve. simpl. rewrite length_app. simpl.
    repeat split; lia.
  - rewrite world_reject, length_reject. simpl. rewrite length_app. simpl.
    repeat split; lia.
Qed.

Lemma promise_then_spec p onF onR rt :
  fst (promise_then p onF onR rt) = length (promises rt) /\
  world (snd (promise_then p onF onR rt)) = world rt /\
  length (promises (snd (promise_then p onF onR rt))) = S (length (promises rt)).
Proof.
  unfold promise_then, new_capability, alloc_cell. simpl.
  destruct (_ !! p) as [[[] ?]|]; simpl; rewrite ?length_insert, ?length_app; simpl;
    repeat split; lia.
Qed.

(** ** A settled promise stays as it is *)

Lemma stays_refl rt : stays rt rt.
Proof. intros p st H _. exact H. Qed.


Lemma stays_set rt0 rt rt' : promises rt' = promises rt -> stays rt0 rt -> stays rt0 rt'.
Proof. intros E H p st Hp Hne. unfold promise_state. rewrite E. by apply H. Qed.

Lemma stays_capability rt0 rt : stays rt0 rt -> stays rt0 (snd (new_capability rt)).
Proof.
  intros H p st Hp Hne. specialize (H p st Hp Hne).
  unfold promise_state in *. simpl.
  destruct (promises rt !! p) as [r|] eqn:E; [|discriminate].
  by rewrite (lookup_app_l_Some _ _ _ _ E).
Qed.

Lemma stays_settle q s rt0 rt : stays rt0 rt -> stays rt0 (settle q s rt).
Proof.
  intros H p st Hp Hne. specialize (H p st Hp Hne).
  unfold settle. destruct (promises rt !! q) as [[[] rs]|] eqn:E; try exact H.
  unfold promise_state in *. simpl.
  destruct (decide (p = q)) as [->|Hpq].
  - rewrite E in H. simpl in H. congruence.
  - by rewrite list_lookup_insert_ne.
Qed.

Lemma stays_then q f g rt0 rt : stays rt0 rt -> stays rt0 (snd (promise_then q f g rt)).
Proof.
  intros H. apply stays_capability in H.
  unfold promise_then. destruct (new_capability rt) as [c rt1]. simpl in H.
  destruct (promises rt1 !! q) as [[[] rs]|] eqn:E; simpl; try exact H;
    try (eapply stays_set; [reflexivity | exact H]).
  intros p st Hp Hne. specialize (H p st Hp Hne).
  unfold promise_state in *. simpl.
  destruct (decide (p = q)) as [->|Hpq].
  - rewrite E in H. simpl in H. congruence.
  - by rewrite list_lookup_insert_ne.
Qed.

Lemma stays_resolve c v rt0 rt : stays rt0 rt -> stays rt0 (promise_resolve_fn c v rt).
Proof.
  intros H. unfold promise_resolve_fn. destruct (cell_true _ _); [exact H|].
  destruct v as [d|q].
  - apply stays_settle. eapply stays_set; [reflexivity | exact H].
  - destruct (Nat.eqb _ _); simpl.
    + apply stays_settle. eapply stays_set; [reflexivity | exact H].
    + eapply stays_set; [reflexivity | exact H].
Qed.

Lemma stays_reject c v rt0 rt : stays rt0 rt -> stays rt0 (promise_reject_fn c v rt).
Proof.
  intros H. unfold promise_reject_fn. destruct (cell_true _ _); [exact H|].
  apply stays_settle. eapply stays_set; [reflexivity | exact H].
Qed.

Lemma stays_perform c a rt0 rt : stays rt0 rt -> stays rt0 (perform c rt a).
Proof.
  intros H. destruct a; simpl; auto using stays_resolve, stays_reject;
    (eapply stays_set; [reflexivity | exact H]).
Qed.

Lemma stays_performs c l rt0 rt : stays rt0 rt -> stays rt0 (foldl (perform c) rt l).
Proof.
  revert rt. induction l as [|a l IH]; intros rt H; simpl; [exact H|].
  apply IH. by apply stays_perform.
Qed.

Lemma stays_run_executor ex c rt0 rt :
  stays rt0 rt -> stays rt0 (fst (run_executor ex c rt)).
Proof.
  intros H. destruct ex as [f| |]; simpl; auto using stays_resolve, stays_reject.
  destruct (f (world rt)) as [w out]. simpl.
  apply stays_performs. eapply stays_set; [reflexivity | exact H].
Qed.

Lemma stays_new_Promise ex rt0 rt : stays rt0 rt -> stays rt0 (snd (new_Promise ex rt)).
Proof.
  intros H. apply stays_capability in H. unfold new_Promise.
  destruct (new_capability rt) as [c rt1]. simpl in H.
  pose proof (stays_run_executor ex c _ _ H) as H1.
  destruct (run_executor ex c rt1) as [rt2 [e|]]; simpl in *; auto using stays_reject.
Qed.

Lemma stays_Promise_resolve v rt0 rt : stays rt0 rt -> stays rt0 (snd (Promise_resolve v rt)).
Proof.
  intros H. unfold Promise_resolve. destruct v as [d|p]; [|exact H].
  apply stays_capability in H. destruct (new_capability rt) as [c rt1]. cbn [fst snd] in *.
  by apply stays_resolve.
Qed.

Lemma stays_Promise_reject v rt0 rt : stays rt0 rt -> stays rt0 (snd (Promise_reject v rt)).
Proof.
  intros H. unfold Promise_reject.
  apply stays_capability in H. destruct (new_capability rt) as [c rt1]. cbn [fst snd] in *.
  by apply stays_reject.
Qed.









(** ** [retry()] without a tester never fails *)

(** *** Tags are kept when more promises are allocated *)

Lemma Resub_ext gs k p : Resub gs p -> Resub (gs ++ k) p.
Proof. unfold Resub. intros H. by apply lookup_app_l_Some. Qed.

Lemma Other_ext gs k p : Other gs p -> Other (gs ++ k) p.
Proof. unfold Other. intros H. by apply lookup_app_l_Some. Qed.

Lemma tagged_ext gs k (p : nat) : is_Some (gs !! p) -> is_Some ((gs ++ k) !! p).
Proof. intros [b H]. exists b. by apply lookup_app_l_Some. Qed.

Lemma Resub_ext_inv gs k p : is_Some (gs !! p) -> Resub (gs ++ k) p -> Resub gs p.
Proof.
  unfold Resub. intros [b H] H'. rewrite (lookup_app_l_Some _ _ _ _ H) in H'. congruence.
Qed.

Lemma Resub_not_Other gs p : Resub gs p -> Other gs p -> False.
Proof. unfold Resub, Other. congruence. Qed.

Lemma reaction_ok_ext gs k p r :
  is_Some (gs !! p) -> reaction_ok gs p r -> reaction_ok (gs ++ k) p r.
Proof.
  unfold reaction_ok. intros Hp.
  destruct (on_fulfilled r) as [[]|], (on_rejected r) as [[]|]; try done.
  - intros (-> & Hd & Hc & Himp). repeat split; auto using Other_ext, tagged_ext.
    intros HG. apply Resub_ext. apply Himp. by eapply Resub_ext_inv.
  - apply Resub_ext.
Qed.

Lemma job_ok_ext gs k j : job_ok gs j -> job_ok (gs ++ k) j.
Proof.
  destruct j as [[] [[]|] d [x|q] | p q]; simpl; try done;
    try (intros [H1 H2]; split); auto using Resub_ext, Other_ext, tagged_ext.
  intros HG. apply Resub_ext, H2. by eapply Resub_ext_inv.
Qed.

Lemma timer_ok_ext gs k t : timer_ok gs t -> timer_ok (gs ++ k) t.
Proof. unfold timer_ok. destruct (callback t); auto using Other_ext. Qed.

Lemma not_Resub_Other gs p : is_Some (gs !! p) -> ~ Resub gs p -> Other gs p.
Proof. unfold Resub, Other. intros [[] H] HG; congruence. Qed.

Lemma tag_last gs b : (gs ++ [b]) !! length gs = Some b.
Proof. by rewrite lookup_app_r, Nat.sub_diag. Qed.

(** *** Operations that do not allocate *)

Lemma Inv_set gs rt rt' :
  promises rt' = promises rt -> microtasks rt' = microtasks rt -> timers rt' = timers rt ->
  Inv gs rt -> Inv gs rt'.
Proof. intros E1 E2 E3 [? ? ? ?]. split; rewrite ?E1, ?E2, ?E3; assumption. Qed.

Lemma Inv_enqueue gs j rt : job_ok gs j -> Inv gs rt -> Inv gs (enqueue j rt).
Proof.
  intros Hj [? ? ? ?]. split; simpl; try assumption.
  apply Forall_app. split; [assumption | by constructor].
Qed.

Lemma Inv_setTimeout gs fn amount arg rt :
  timer_ok gs (mkTimer (clock rt + amount) fn arg) -> Inv gs rt ->
  Inv gs (setTimeout fn amount arg rt).
Proof.
  intros Ht [? ? ? ?]. split; simpl; try assumption.
  apply Forall_app. split; [assumption | by constructor].
Qed.

Lemma jobs_fulfilled gs p d rs :
  Forall (reaction_ok gs p) rs -> Forall (job_ok gs) (omap (reaction_job (Fulfilled d)) rs).
Proof.
  induction 1 as [|r rs Hr _ IH]; simpl; [constructor|].
  constructor; [|exact IH].
  unfold reaction_ok in Hr. simpl.
  destruct (on_fulfilled r) as [[]|], (on_rejected r) as [[]|]; try done.
  destruct Hr as (_ & Hd & Hc & _). by split.
Qed.

Lemma jobs_rejected gs p e rs :
  Other gs p ->
  Forall (reaction_ok gs p) rs -> Forall (job_ok gs) (omap (reaction_job (Rejected e)) rs).
Proof.
  intros Hp. induction 1 as [|r rs Hr _ IH]; simpl; [constructor|].
  constructor; [|exact IH].
  unfold reaction_ok in Hr. simpl.
  destruct (on_fulfilled r) as [[]|], (on_rejected r) as [[]|]; simpl in *; try done.
  destruct Hr as (-> & Hd & Hc & Himp). split; [assumption|].
  apply not_Resub_Other; [assumption|]. intros HG. apply (Resub_not_Other gs p); auto.
Qed.

Lemma Inv_settle_fulfilled gs p d rt : Inv gs rt -> Inv gs (settle p (Fulfilled d) rt).
Proof.
  intros HI. unfold settle.
  destruct (promises rt !! p) as [[[] rs]|] eqn:E; try exact HI.
  destruct HI as [Hl Hh Hj Ht]. destruct (Hh _ _ E) as [_ Hrs]. simpl in Hrs.
  split; simpl.
  - by rewrite length_insert.
  - intros q rec Hq. destruct (decide (q = p)) as [->|Hne].
    + rewrite list_lookup_insert_eq in Hq by (by eapply lookup_lt_Some).
      injection Hq as <-. split; simpl; [done | constructor].
    + rewrite list_lookup_insert_ne in Hq by done. by apply Hh.
  - apply Forall_app. split; [assumption | by eapply jobs_fulfilled].
  - assumption.
Qed.

Lemma Inv_settle_rejected gs p e rt :
  Other gs p -> Inv gs rt -> Inv gs (settle p (Rejected e) rt).
Proof.
  intros Hp HI. unfold settle.
  destruct (promises rt !! p) as [[[] rs]|] eqn:E; try exact HI.
  destruct HI as [Hl Hh Hj Ht]. destruct (Hh _ _ E) as [_ Hrs]. simpl in Hrs.
  split; simpl.
  - by rewrite length_insert.
  - intros q rec Hq. destruct (decide (q = p)) as [->|Hne].
    + rewrite list_lookup_insert_eq in Hq by (by eapply lookup_lt_Some).
      injection Hq as <-. split; simpl; [|constructor].
      intros HG. exfalso. by eapply (Resub_not_Other gs _ HG).
    + rewrite list_lookup_insert_ne in Hq by done. by apply Hh.
  - apply Forall_app. split; [assumption | by eapply jobs_rejected].
  - assumption.
Qed.

Lemma Inv_resolve gs c v rt :
  resolve_ok gs c v -> Inv gs rt -> Inv gs (promise_resolve_fn c v rt).
Proof.
  intros Hv HI. unfold promise_resolve_fn. destruct (cell_true _ _); [exact HI|].
  assert (HI' : Inv gs (write_cell (cap_flag c) (DBool true) rt))
    by (refine (Inv_set gs _ _ _ _ _ HI); reflexivity).
  destruct v as [d|q]; [by apply Inv_settle_fulfilled|].
  simpl in Hv. destruct (Nat.eqb_spec q (cap_promise c)) as [->|Hne].
  - destruct Hv as [HN|(_ & _ & Hne)]; [|done].
    cbn [new_error]. apply Inv_settle_rejected; [assumption|].
    refine (Inv_set gs _ _ _ _ _ HI'); reflexivity.
  - apply Inv_enqueue; [|exact HI']. simpl.
    destruct Hv as [HN|(HG & HGq & _)].
    + split; [by eexists|]. intros HG. exfalso. by eapply (Resub_not_Other gs _ HG).
    + split; [by eexists|]. done.
Qed.

Lemma Inv_reject gs c e rt :
  Other gs (cap_promise c) -> Inv gs rt -> Inv gs (promise_reject_fn c e rt).
Proof.
  intros Hc HI. unfold promise_reject_fn. destruct (cell_true _ _); [exact HI|].
  apply Inv_settle_rejected; [assumption|].
  refine (Inv_set gs _ _ _ _ _ HI); reflexivity.
Qed.

(** *** Allocation *)

Lemma promise_ok_ext gs k p rec :
  is_Some (gs !! p) -> promise_ok gs p rec -> promise_ok (gs ++ k) p rec.
Proof.
  intros Hp [H1 H2]. split.
  - intros HG. apply H1. by eapply Resub_ext_inv.
  - eapply Forall_impl; [exact H2|]. intros r. by apply reaction_ok_ext.
Qed.

Lemma Inv_capability gs b rt :
  Inv gs rt ->
  cap_promise (fst (new_capability rt)) = length gs /\
  Inv (gs ++ [b]) (snd (new_capability rt)).
Proof.
  intros [Hl Hh Hj Ht]. split; [simpl; congruence|].
  split; simpl.
  - rewrite !length_app. simpl. congruence.
  - intros p rec Hp. apply lookup_app_Some in Hp as [Hp|[Hge Hp]].
    + apply promise_ok_ext; [|by apply Hh].
      apply lookup_lt_is_Some. rewrite Hl. by eapply lookup_lt_Some.
    + destruct (p - length (promises rt)) as [|n] eqn:E; [|done].
      injection Hp as <-. split; simpl; [done | constructor].
  - eapply Forall_impl; [exact Hj|]. intros j. apply job_ok_ext.
  - eapply Forall_impl; [exact Ht|]. intros t. apply timer_ok_ext.
Qed.

(** Attaching to [q], given that the reaction is fine once the derived
    promise carries its tag, and so are the jobs it turns into. *)
Lemma Inv_then gs b q onF onR rt :
  Inv gs rt ->
  (forall c, cap_promise c = length gs ->
     reaction_ok (gs ++ [b]) q (mkReaction onF onR c) /\
     (forall d, job_ok (gs ++ [b]) (ReactionJob Fulfill onF c (VData d))) /\
     (forall e, ~ Resub (gs ++ [b]) q -> job_ok (gs ++ [b]) (ReactionJob Reject onR c e))) ->
  fst (promise_then q onF onR rt) = length gs /\
  Inv (gs ++ [b]) (snd (promise_then q onF onR rt)).
Proof.
  intros HI Hr. pose proof (promise_then_spec q onF onR rt) as (Hf & _ & _).
  split; [rewrite Hf; symmetry; apply HI|].
  destruct (Inv_capability gs b rt HI) as [Hc HI1].
  unfold promise_then. destruct (new_capability rt) as [c rt1]. cbn [fst snd] in *.
  destruct (Hr c Hc) as (Hok & HjF & HjR).
  destruct (promises rt1 !! q) as [[st rs]|] eqn:E; [|exact HI1].
  destruct HI1 as [Hl Hh Hj Ht]. destruct (Hh _ _ E) as [Hst Hrs]. simpl in Hst, Hrs.
  destruct st as [|d|e]; cbn [snd].
  - split; simpl; try assumption.
    + by rewrite length_insert.
    + intros p rec Hp. destruct (decide (p = q)) as [->|Hne].
      * rewrite list_lookup_insert_eq in Hp by (by eapply lookup_lt_Some).
        injection Hp as <-. split; simpl; [done|].
        apply Forall_app. split; [assumption | by constructor].
      * rewrite list_lookup_insert_ne in Hp by done. by apply Hh.
  - split; simpl; try assumption.
    apply Forall_app. split; [assumption|]. constructor; [apply HjF | constructor].
  - split; simpl; try assumption.
    apply Forall_app. split; [assumption|]. constructor; [|constructor].
    apply HjR. intros HG. by eapply Hst.
Qed.

Lemma Inv_then_retry gs q supplier rt :
  Inv gs rt ->
  fst (promise_then q (Some FnRetryForward) (Some (FnRetryAlways supplier)) rt)
    = length gs /\
  Inv (gs ++ [true])
    (snd (promise_then q (Some FnRetryForward) (Some (FnRetryAlways supplier)) rt)).
Proof.
  intros HI. apply Inv_then; [exact HI|].
  intros c Hc. unfold reaction_ok. simpl. rewrite Hc.
  repeat split; intros; apply tag_last.
Qed.

Lemma Inv_then_adopt gs q c rt :
  Inv gs rt -> is_Some (gs !! cap_promise c) -> (Resub gs (cap_promise c) -> Resub gs q) ->
  Inv (gs ++ [false]) (snd (promise_then q (Some (FnResolve c)) (Some (FnReject c)) rt)).
Proof.
  intros HI Hc Himp. apply Inv_then; [exact HI|].
  intros d Hd. unfold reaction_ok. simpl. rewrite Hd.
  assert (Himp' : Resub (gs ++ [false]) (cap_promise c) -> Resub (gs ++ [false]) q).
  { intros HG. apply Resub_ext, Himp. by eapply Resub_ext_inv. }
  repeat split; auto using tagged_ext; try apply tag_last.
  apply not_Resub_Other; [by apply tagged_ext | tauto].
Qed.

(** *** Executors *)

Lemma Inv_perform gs c a rt :
  Other gs (cap_promise c) -> Inv gs rt -> Inv gs (perform c rt a).
Proof.
  intros Hc HI. destruct a as [v|e|ms v|ms e]; cbn [perform].
  - apply Inv_resolve; [|exact HI]. destruct v; simpl; auto.
  - by apply Inv_reject.
  - by apply Inv_setTimeout.
  - by apply Inv_setTimeout.
Qed.

Lemma Inv_performs gs c l rt :
  Other gs (cap_promise c) -> Inv gs rt -> Inv gs (foldl (perform c) rt l).
Proof.
  intros Hc. revert rt. induction l as [|a l IH]; intros rt HI; simpl; [exact HI|].
  apply IH. by apply Inv_perform.
Qed.

Lemma Inv_run_executor gs ex c rt :
  Other gs (cap_promise c) -> Inv gs rt -> Inv gs (fst (run_executor ex c rt)).
Proof.
  intros Hc HI. destruct ex as [f|v|e]; cbn [run_executor].
  - destruct (f (world rt)) as [w out]. cbn [fst].
    apply Inv_performs; [assumption|].
    refine (Inv_set gs _ _ _ _ _ HI); reflexivity.
  - apply Inv_resolve; [|exact HI]. destruct v; simpl; auto.
  - by apply Inv_reject.
Qed.

Lemma Inv_new_Promise gs ex rt :
  Inv gs rt -> Inv (gs ++ [false]) (snd (new_Promise ex rt)).
Proof.
  intros HI. destruct (Inv_capability gs false rt HI) as [Hc HI1].
  unfold new_Promise. destruct (new_capability rt) as [c rt1]. cbn [fst snd] in *.
  assert (HN : Other (gs ++ [false]) (cap_promise c)) by (rewrite Hc; apply tag_last).
  pose proof (Inv_run_executor _ ex c rt1 HN HI1) as HI2.
  destruct (run_executor ex c rt1) as [rt2 [e|]]; cbn [fst snd] in *; [|exact HI2].
  by apply Inv_reject.
Qed.

Lemma Inv_resub gs supplier rt :
  Inv gs rt ->
  fst (resub supplier rt) = S (length gs) /\
  Inv (gs ++ [false; true]) (snd (resub supplier rt)).
Proof.
  intros HI. pose proof (Inv_new_Promise gs supplier rt HI) as HI1.
  unfold resub. destruct (new_Promise supplier rt) as [p rt1]. cbn [snd] in HI1.
  destruct (Inv_then_retry _ p supplier rt1 HI1) as [Hf HI2].
  rewrite length_app in Hf. simpl in Hf.
  rewrite <- app_assoc in HI2. simpl in HI2.
  split; [rewrite Hf; lia | exact HI2].
Qed.

(** *** Jobs and the loop *)

Lemma Inv_run_job gs j rt :
  job_ok gs j -> Inv gs rt -> exists k, Inv (gs ++ k) (run_job j rt).
Proof.
  intros Hj HI. destruct j as [kind handler d x | p q].
  - destruct kind, handler as [[]|], x as [v|y]; try done; simpl in Hj.
    + (* a thenable's fulfilment is passed on *)
      exists []. rewrite app_nil_r. destruct Hj as [Hd Hc]. cbn.
      apply Inv_resolve; [done|]. by apply Inv_resolve.
    + (* x => x *)
      exists []. rewrite app_nil_r. cbn. by apply Inv_resolve.
    + (* a thenable's failure is passed on *)
      exists []. rewrite app_nil_r. destruct Hj as [Hd Hc]. cbn.
      apply Inv_resolve; [done|]. by apply Inv_reject.
    + exists []. rewrite app_nil_r. destruct Hj as [Hd Hc]. cbn.
      apply Inv_resolve; [done|]. by apply Inv_reject.
    + (* () => resub() *)
      exists [false; true]. destruct (Inv_resub gs supplier rt HI) as [Hf HI1].
      cbn. destruct (resub supplier rt) as [r rt1]. cbn [fst snd] in *. subst r.
      apply Inv_resolve; [|exact HI1]. right.
      assert (Hlt : cap_promise d < length gs) by (by eapply lookup_lt_Some).
      repeat split.
      * by apply Resub_ext.
      * unfold Resub. rewrite lookup_app_r by lia.
        replace (S (length gs) - length gs) with 1 by lia. reflexivity.
      * lia.
    + exists [false; true]. destruct (Inv_resub gs supplier rt HI) as [Hf HI1].
      cbn. destruct (resub supplier rt) as [r rt1]. cbn [fst snd] in *. subst r.
      apply Inv_resolve; [|exact HI1]. right.
      assert (Hlt : cap_promise d < length gs) by (by eapply lookup_lt_Some).
      repeat split.
      * by apply Resub_ext.
      * unfold Resub. rewrite lookup_app_r by lia.
        replace (S (length gs) - length gs) with 1 by lia. reflexivity.
      * lia.
  - exists [false]. destruct Hj as [Hp Hq]. cbn [run_job].
    destruct (alloc_cell (DBool false) rt) as [flag rt1] eqn:E.
    apply Inv_then_adopt; [|exact Hp|exact Hq].
    injection E as _ <-. refine (Inv_set gs _ _ _ _ _ HI); reflexivity.
Qed.

Lemma take_due_Forall (P : Timer -> Prop) d ts t rest :
  take_due d ts = Some (t, rest) -> Forall P ts -> P t /\ Forall P rest.
Proof.
  revert rest. induction ts as [|u ts IH]; intros rest; simpl; [done|].
  intros E HF. apply Forall_cons in HF as [Hu HF].
  destruct (Nat.eqb (due u) d).
  - injection E as <- <-. by split.
  - destruct (take_due d ts) as [[t' rest']|]; [|done].
    injection E as <- <-. destruct (IH _ eq_refl HF) as [Ht Hr].
    split; [assumption | by constructor].
Qed.

Lemma Inv_step gs h rt rt' :
  Inv gs rt -> step h rt = Some rt' -> exists k, Inv (gs ++ k) rt'.
Proof.
  intros HI. unfold step. destruct (microtasks rt) as [|j js] eqn:Em.
  - destruct (earliest _) as [d|]; [|discriminate].
    destruct (Nat.leb d h); [|discriminate].
    destruct (take_due _ _) as [[t rest]|] eqn:Et; [|discriminate].
    intros [= <-]. exists []. rewrite app_nil_r.
    destruct (take_due_Forall _ _ _ _ _ Et (inv_timers _ _ HI)) as [Ht Hrest].
    assert (HI1 : Inv gs (set_clock (Nat.max (clock rt) d) (set_timers rest rt))).
    { destruct HI as [? ? ? ?]. split; assumption. }
    unfold timer_ok in Ht. destruct (callback t); try done; cbn [call_fn fst].
    + apply Inv_resolve; [|exact HI1]. destruct (targ t); simpl; auto.
    + by apply Inv_reject.
  - intros [= <-]. pose proof (inv_jobs _ _ HI) as Hj. rewrite Em in Hj.
    apply Forall_cons in Hj as [Hj Hjs].
    apply Inv_run_job; [exact Hj|].
    destruct HI as [? ? ? ?]. split; assumption.
Qed.

Lemma Inv_run gs fuel h rt : Inv gs rt -> exists k, Inv (gs ++ k) (run fuel h rt).
Proof.
  revert gs rt. induction fuel as [|n IH]; intros gs rt HI; simpl.
  - exists []. by rewrite app_nil_r.
  - destruct (step h rt) as [rt1|] eqn:E.
    + destruct (Inv_step _ _ _ _ HI E) as [k1 HI1].
      destruct (IH _ _ HI1) as [k2 HI2]. exists (k1 ++ k2). by rewrite app_assoc.
    + exists []. by rewrite app_nil_r.
Qed.

Lemma Inv_boot w : Inv [] (boot w).
Proof. split; simpl; [reflexivity | done | constructor | constructor]. Qed.

Lemma retry_never_rejected (ex : Executor) w fuel h e :
  let (r, rt) := DeferredPromise_retry (mkDeferred ex) None (boot w) in
  promise_state r (run fuel h rt) <> Some (Rejected e).
Proof.
  cbn [DeferredPromise_retry _supplier].
  destruct (Inv_resub [] ex (boot w) (Inv_boot w)) as [Hf HI].
  destruct (resub ex (boot w)) as [r rt]. cbn [fst snd] in *. simpl in Hf. subst r.
  destruct (Inv_run _ fuel h _ HI) as [k HI1].
  unfold promise_state. intros Hst.
  destruct (promises (run fuel h rt) !! 1) as [rec|] eqn:E; [|discriminate].
  injection Hst as Hst.
  destruct (inv_heap _ _ HI1 _ _ E) as [HG _].
  by apply (HG eq_refl e).
Qed.

(** ** Cells allocated so far are left alone by later allocations *)

Lemma keeps_refl rt : keeps rt rt.
Proof. unfold keeps. reflexivity. Qed.

Lemma keeps_set rt0 rt rt' : cells rt' = cells rt -> keeps rt0 rt -> keeps rt0 rt'.
Proof. unfold keeps. by intros ->. Qed.

Lemma keeps_write rt0 rt i v :
  length (cells rt0) <= i -> keeps rt0 rt -> keeps rt0 (write_cell i v rt).
Proof.
  unfold keeps. intros Hi [k Hk]. simpl. rewrite Hk.
  rewrite insert_app_r_alt by done. by eexists.
Qed.

Lemma keeps_capability rt0 rt :
  keeps rt0 rt ->
  length (cells rt0) <= cap_flag (fst (new_capability rt)) /\
  keeps rt0 (snd (new_capability rt)).
Proof.
  unfold keeps. intros [k Hk]. simpl. rewrite Hk. split.
  - rewrite length_app. lia.
  - exists (k ++ [DBool false]). by rewrite app_assoc.
Qed.

Lemma keeps_settle p st rt0 rt : keeps rt0 rt -> keeps rt0 (settle p st rt).
Proof.
  intros H. unfold settle. destruct (promises rt !! p) as [[[] ?]|]; exact H.
Qed.

Lemma keeps_resolve c v rt0 rt :
  length (cells rt0) <= cap_flag c -> keeps rt0 rt -> keeps rt0 (promise_resolve_fn c v rt).
Proof.
  intros Hc H. unfold promise_resolve_fn. destruct (cell_true _ _); [exact H|].
  pose proof (keeps_write _ _ _ (DBool true) Hc H) as H1.
  destruct v as [d|q]; [by apply keeps_settle|].
  destruct (Nat.eqb _ _); cbn [new_error].
  - apply keeps_settle. refine (keeps_set _ _ _ _ H1). reflexivity.
  - refine (keeps_set _ _ _ _ H1). reflexivity.
Qed.

Lemma keeps_reject c v rt0 rt :
  length (cells rt0) <= cap_flag c -> keeps rt0 rt -> keeps rt0 (promise_reject_fn c v rt).
Proof.
  intros Hc H. unfold promise_reject_fn. destruct (cell_true _ _); [exact H|].
  apply keeps_settle. by apply keeps_write.
Qed.

Lemma keeps_performs c l rt0 rt :
  length (cells rt0) <= cap_flag c -> keeps rt0 rt -> keeps rt0 (foldl (perform c) rt l).
Proof.
  intros Hc. revert rt. induction l as [|a l IH]; intros rt H; simpl; [exact H|].
  apply IH. destruct a; cbn [perform]; auto using keeps_resolve, keeps_reject;
    (refine (keeps_set _ _ _ _ H); reflexivity).
Qed.

Lemma keeps_new_Promise ex rt0 rt : keeps rt0 rt -> keeps rt0 (snd (new_Promise ex rt)).
Proof.
  intros H. destruct (keeps_capability _ _ H) as [Hc H1].
  unfold new_Promise. destruct (new_capability rt) as [c rt1]. cbn [fst snd] in *.
  assert (H2 : keeps rt0 (fst (run_executor ex c rt1))).
  { destruct ex as [f|v|e]; cbn [run_executor fst]; auto using keeps_resolve, keeps_reject.
    destruct (f (world rt1)) as [w out]. cbn [fst].
    apply keeps_performs; [assumption|]. refine (keeps_set _ _ _ _ H1). reflexivity. }
  destruct (run_executor ex c rt1) as [rt2 [e|]]; cbn [fst snd] in *;
    auto using keeps_reject.
Qed.

Lemma keeps_then q onF onR rt0 rt :
  keeps rt0 rt -> keeps rt0 (snd (promise_then q onF onR rt)).
Proof.
  intros H. destruct (keeps_capability _ _ H) as [_ H1].
  unfold promise_then. destruct (new_capability rt) as [c rt1]. cbn [fst snd] in *.
  destruct (promises rt1 !! q) as [[[] ?]|]; cbn [snd]; try exact H1;
    (refine (keeps_set _ _ _ _ H1); reflexivity).
Qed.

Lemma keeps_read i rt0 rt :
  i < length (cells rt0) -> keeps rt0 rt -> read_cell i rt = read_cell i rt0.
Proof.
  unfold keeps, read_cell. intros Hi [k ->]. by rewrite lookup_app_l.
Qed.

(** [Promise.reject(x)] makes the next promise, rejected with [x]. *)
Lemma Promise_reject_spec x rt :
  fst (Promise_reject x rt) = length (promises rt) /\
  promise_state (length (promises rt)) (snd (Promise_reject x rt)) = Some (Rejected x) /\
  world (snd (Promise_reject x rt)) = world rt /\
  keeps rt (snd (Promise_reject x rt)).
Proof.
  unfold Promise_reject, new_capability, alloc_cell, promise_reject_fn, cell_true,
    read_cell, write_cell, settle, promise_state.
  cbn. rewrite lookup_app_r, Nat.sub_diag by lia. cbn.
  rewrite lookup_app_r, Nat.sub_diag by lia. cbn.
  rewrite list_lookup_insert_eq by (rewrite length_app; simpl; lia).
  repeat split. unfold keeps. cbn.
  rewrite insert_app_r_alt, Nat.sub_diag by lia. by eexists.
Qed.

Lemma retry_handler_spec (supplier : Executor) (x : Value) rt :
  let (rt', result) := call_fn (FnRetryAlways supplier) x rt in
  world rt' = invoke supplier (world rt) /\
  result = Normal (VPromise (S (length (promises rt)))).
Proof.
  cbn [call_fn]. unfold resub.
  destruct (new_Promise_spec supplier rt) as (_ & Hw & Hl).
  destruct (new_Promise supplier rt) as [p rt1]. cbn [fst snd] in *.
  pose proof (promise_then_spec p (Some FnRetryForward) (Some (FnRetryAlways supplier)) rt1)
    as (Hf & Hw' & _).
  destruct (promise_then _ _ _ rt1) as [q rt2]. cbn [fst snd] in *.
  split; congruence.
Qed.

Lemma retry_tester_spec (supplier : Executor) (fn : RetryTester) (tries : nat) (n : Z)
    (x : Value) rt :
  read_cell tries rt = DNum n ->
  let (w', again) := fn (n + 1)%Z x (world rt) in
  let (rt', result) := call_fn (FnRetryTest supplier fn tries) x rt in
  read_cell tries rt' = DNum (n + 1) /\
  if again
  then world rt' = invoke supplier w' /\
       result = Normal (VPromise (S (length (promises rt))))
  else world rt' = w' /\
       result = Normal (VPromise (length (promises rt))) /\
       promise_state (length (promises rt)) rt' = Some (Rejected x).
Proof.
  intros Hn. cbn [call_fn]. rewrite Hn. cbv zeta.
  assert (Hlt : tries < length (cells rt)).
  { unfold read_cell in Hn. destruct (cells rt !! tries) eqn:E; [|discriminate].
    by eapply lookup_lt_Some. }
  set (rt1 := write_cell tries (DNum (n + 1)) rt).
  assert (Hr1 : read_cell tries rt1 = DNum (n + 1)).
  { unfold rt1, read_cell, write_cell. cbn. by rewrite list_lookup_insert_eq. }
  assert (Hl1 : tries < length (cells rt1))
    by (unfold rt1, write_cell; cbn; by rewrite length_insert).
  change (world rt1) with (world rt).
  destruct (fn (n + 1)%Z x (world rt)) as [w' again].
  set (rt2 := set_world w' rt1).
  assert (Hk : keeps rt1 rt2) by (refine (keeps_set _ _ _ _ (keeps_refl rt1)); reflexivity).
  destruct again.
  - unfold resub_test.
    destruct (new_Promise_spec supplier rt2) as (_ & Hw & Hl).
    pose proof (keeps_new_Promise supplier _ _ Hk) as Hk1.
    destruct (new_Promise supplier rt2) as [p rt3]. cbn [fst snd] in *.
    pose proof (promise_then_spec p (Some FnRetryForward)
                  (Some (FnRetryTest supplier fn tries)) rt3) as (Hf & Hw' & _).
    pose proof (keeps_then p (Some FnRetryForward)
                  (Some (FnRetryTest supplier fn tries)) _ _ Hk1) as Hk2.
    destruct (promise_then _ _ _ rt3) as [q rt4]. cbn [fst snd] in *.
    split; [by rewrite (keeps_read _ _ _ Hl1 Hk2)|].
    split; [by rewrite Hw', Hw|]. by rewrite Hf, Hl.
  - destruct (Promise_reject_spec x rt2) as (Hf & Hst & Hw & Hk1).
    destruct (Promise_reject x rt2) as [p rt3]. cbn [fst snd] in *.
    split; [rewrite (keeps_read tries rt1 rt3); [done..|]|].
    + unfold keeps in *. by etransitivity.
    + repeat split; [exact Hw | by rewrite Hf | exact Hst].
Qed.

End Facts.

Section Claims.

Context {W : Type}.
Implicit Types (rt : @Runtime W) (w : W) (h : nat).

(** ** Facts about [===] *)

Lemma strict_eq_self (v : Data) : strict_eq v v = negb (is_nan v).
Proof.
  destruct v as [|b| | | | | |]; simpl;
    rewrite ?Nat.eqb_refl, ?Z.eqb_refl, ?String.eqb_refl; try reflexivity.
  by destruct b.
Qed.

(** ** [timeout], at any horizon *)


(** ** Calls on a PublishedPromise that is resolved already *)

Lemma external_noop (p : nat) (c : Capability) (l : list External) rt :
  cell_true (cap_flag c) rt = true ->
  foldl (external (mkPublished p (FnResolve c) (FnReject c))) rt l = rt.
Proof.
  intros Hc. induction l as [|a l IH]; simpl; [reflexivity|].
  destruct a as [v|e]; unfold external, PublishedPromise_resolve, PublishedPromise_reject;
    cbn [call_fn _resolve _reject fst]; unfold promise_resolve_fn, promise_reject_fn;
    rewrite Hc; exact IH.
Qed.



(** * The claims *)

(** Claim C2, amended.  For a value [v] that is not a promise, attaching
    twice to [DeferredPromise.resolve(v)] delivers [v] to the continuation
    twice.  For a promise [p], each attachment to
    [DeferredPromise.resolve(p)] follows [p]: the continuation is handed the
    value [p] succeeds with, not [p], and it is not called at all if [p]
    fails or never settles.  On any DeferredPromise, in any state of the
    runtime, each of [then], [catch], [finally] and [toPromise] makes a new
    promise from the stored supplier, which is thereby invoked once more,
    and attaches to that new promise. *)
Theorem DeferredPromise_attachment_reinvokes :
  (forall (v : Data) (record : Value -> W -> W) w h,
     let d := DeferredPromise_resolve v in
     let k := Some (FnUser (observe record)) in
     let (p1, rt1) := DeferredPromise_then d k None (boot w) in
     let (p2, rt2) := DeferredPromise_then d k None rt1 in
     exists rt', runs_to h rt2 rt' /\ world rt' = record v (record v w)) /\
  (forall (this : DeferredPromise) rt (res rej : option Fn) (fin : Thunk),
     let fresh := length (promises rt) in
     let made := snd (new_Promise (_supplier this) rt) in
     world made = invoke (_supplier this) (world rt) /\
     length (promises made) = S fresh /\
     DeferredPromise_then this res rej rt = promise_then fresh res rej made /\
     DeferredPromise_catch this rej rt = Promise_catch fresh rej made /\
     DeferredPromise_finally this fin rt = Promise_finally fresh fin made /\
     DeferredPromise_toPromise this rt = (fresh, made)) /\
  (forall (src : Source) (record : Value -> W -> W) w h,
     let (p, rt0) := source src (boot w) in
     let d := DeferredPromise_resolve (VPromise p) in
     let k := Some (FnUser (observe record)) in
     let (p1, rt1) := DeferredPromise_then d k None rt0 in
     let (p2, rt2) := DeferredPromise_then d k None rt1 in
     exists rt', runs_to (settles_at src + h) rt2 rt' /\
       match settles src with
       | Some (Success x) =>
           world rt' = record x (record x w) /\
           promise_state p1 rt' = Some (Fulfilled DUndefined) /\
           promise_state p2 rt' = Some (Fulfilled DUndefined)
       | Some (Failure e) =>
           world rt' = w /\
           promise_state p1 rt' = Some (Rejected e) /\
           promise_state p2 rt' = Some (Rejected e)
       | None =>
           world rt' = w /\
           promise_state p1 rt' = Some Pending /\
           promise_state p2 rt' = Some Pending
       end).
Proof.
  split; [|split].
  - intros. setup. eexists. split; [play | reflexivity].
  - intros this rt res rej fin fresh made.
    destruct (new_Promise_spec (_supplier this) rt) as (Hf & Hw & Hl).
    unfold DeferredPromise_then, DeferredPromise_catch, DeferredPromise_finally,
      DeferredPromise_toPromise.
    subst fresh made. destruct (new_Promise _ rt) as [p rt1]. simpl in *. subst p.
    repeat split; assumption.
  - intros src record w h.
    destruct src as [[x|e] | ms [x|e] | ]; unfold settles, settles_at;
      setup; cbv zeta; setup.
    all: eexists; (split; [play | split; [|split]; reflexivity]).
Qed.

(** Claim C3.  A supplier that fails on its first two instantiations, by
    rejecting or by throwing, and succeeds with [v] on the third: [retry()]
    settles success with [v], the supplier having been instantiated exactly
    three times.  Without a tester
    the failure handler instantiates the supplier again whatever the
    failure was, and the promise that [retry()] returns is never rejected,
    whatever the supplier does and however long the loop runs. *)
Theorem retry_without_tester (f : PromiseExecutor) (w0 w1 w2 w3 : W)
    (t1 t2 : bool) (e1 e2 : Value) (v : Data) h
    (H1 : f w0 = (w1, failure t1 e1))
    (H2 : f w1 = (w2, failure t2 e2))
    (H3 : f w2 = (w3, succeeds_with v)) :
  (let (r, rt) := DeferredPromise_retry (mkDeferred (ExUser f)) None (boot w0) in
   exists rt', runs_to h rt rt' /\
     promise_state r rt' = Some (Fulfilled v) /\ world rt' = w3) /\
  (forall (supplier : Executor) (x : Value) rt,
     let (rt', result) := call_fn (FnRetryAlways supplier) x rt in
     world rt' = invoke supplier (world rt) /\
     result = Normal (VPromise (S (length (promises rt))))) /\
  (forall (supplier : Executor) w (fuel horizon : nat) (e : Value),
     let (r, rt) := DeferredPromise_retry (mkDeferred supplier) None (boot w) in
     promise_state r (run fuel horizon rt) <> Some (Rejected e)).
Proof.
  split; [|split].
  - destruct t1, t2; start_by H1; eexists;
      (split; [tick_by H2; tick_by H3; play | split; reflexivity]).
  - apply retry_handler_spec.
  - apply retry_never_rejected.
Qed.

(** Claim C4.  With a tester [fn], the failure handler counts the failure,
    calls [fn] with the count and the failure value, and then either
    instantiates the supplier again or returns a promise rejected with that
    very value.  The count starts at 1: a supplier that fails twice, with a
    tester that says yes to [(1, e1)] and no to [(2, e2)], gives a promise
    rejected with [e2] after exactly two instantiations. *)
Theorem retry_with_tester (f : PromiseExecutor) (fn : RetryTester) (w0 w1 w2 w3 w4 : W)
    (t1 t2 : bool) (e1 e2 : Value) h
    (supplier : Executor) (tries : nat) (n : Z) (x : Value) rt
    (H1 : f w0 = (w1, failure t1 e1)) (H2 : fn 1%Z e1 w1 = (w2, true))
    (H3 : f w2 = (w3, failure t2 e2)) (H4 : fn 2%Z e2 w3 = (w4, false))
    (Hn : read_cell tries rt = DNum n) :
  (let (r, rt0) := DeferredPromise_retry (mkDeferred (ExUser f)) (Some fn) (boot w0) in
   exists rt', runs_to h rt0 rt' /\
     promise_state r rt' = Some (Rejected e2) /\ world rt' = w4) /\
  (let (w', again) := fn (n + 1)%Z x (world rt) in
   let (rt', result) := call_fn (FnRetryTest supplier fn tries) x rt in
   read_cell tries rt' = DNum (n + 1) /\
   if again
   then world rt' = invoke supplier w' /\
        result = Normal (VPromise (S (length (promises rt))))
   else world rt' = w' /\
        result = Normal (VPromise (length (promises rt))) /\
        promise_state (length (promises rt)) rt' = Some (Rejected x)).
Proof.
  split.
  - destruct t1, t2; start_by H1; eexists;
      (split; [tick_by2 H2 H3; tick_by H4; play | split; reflexivity]).
  - by apply retry_tester_spec.
Qed.

(** Claim C5, amended.  On a source that succeeds with [x],
    [contains(value, bipredicate)] calls the tester once, on [(x, value)],
    and settles success with what it answers; without a tester it settles
    success with [x === value], which for [x = value] is true unless the
    value is [NaN].  On a source that fails, the result fails with the same
    value and the tester is not called. *)
Theorem contains_spec (src : Source) (value : Value) (bipredicate : BiTester) w h
    (Hh : settles_at src <= h) :
  (let (this, rt1) := source src (boot w) in
   let (q, rt2) := Promise_contains this value (Some bipredicate) rt1 in
   exists rt', runs_to h rt2 rt' /\
     match settles src with
     | Some (Success x) =>
         promise_state q rt' = Some (Fulfilled (DBool (snd (bipredicate x value w)))) /\
         world rt' = fst (bipredicate x value w)
     | Some (Failure e) => promise_state q rt' = Some (Rejected e) /\ world rt' = w
     | None => promise_state q rt' = Some Pending /\ world rt' = w
     end) /\
  (let (this, rt1) := source src (boot w) in
   let (q, rt2) := Promise_contains this value None rt1 in
   exists rt', runs_to h rt2 rt' /\
     match settles src with
     | Some (Success x) => promise_state q rt' = Some (Fulfilled (DBool (strict_eq x value)))
     | Some (Failure e) => promise_state q rt' = Some (Rejected e)
     | None => promise_state q rt' = Some Pending
     end) /\
  (forall v : Data, strict_eq v v = negb (is_nan v)).
Proof.
  split; [|split; [|apply strict_eq_self]].
  all: destruct src as [[x|e] | ms [x|e] | ]; simpl in Hh; setup;
    unfold settles; cbv beta iota.
  all: try destruct (bipredicate x value w) as [w' b] eqn:Hp.
  all: eexists; (split; [ first [play_by Hp | play] | simpl; try split; reflexivity ]).
Qed.

(** Claim C6.  [compare(a, b, comparator)] settles success with what the
    comparator answers on the two values once both promises have succeeded,
    the comparator being called once; it fails with the failure value of the
    promise that fails first, and stays pending otherwise.  [equals] is
    [compare] with [===], and 50 against 25 under [(x, y) => x % y === 0]
    gives [true]. *)
Theorem compare_spec (sa sb : Source) (comparator : BiTester) w h
    (Ha : settles_at sa <= h) (Hb : settles_at sb <= h) :
  (let (a, rt1) := source sa (boot w) in
   let (b, rt2) := source sb rt1 in
   let (q, rt3) := Promise_compare a b comparator rt2 in
   exists rt', runs_to h rt3 rt' /\
     match settles sa, settles sb with
     | Some (Success x), Some (Success y) =>
         promise_state q rt' = Some (Fulfilled (DBool (snd (comparator x y w)))) /\
         world rt' = fst (comparator x y w)
     | Some (Failure ea), Some (Failure eb) =>
         promise_state q rt' = Some (Rejected (if no_later sa sb then ea else eb)) /\
         world rt' = w
     | Some (Failure e), _ | _, Some (Failure e) =>
         promise_state q rt' = Some (Rejected e) /\ world rt' = w
     | _, _ => promise_state q rt' = Some Pending /\ world rt' = w
     end) /\
  (forall (a b : nat) rt,
     Promise_equals a b rt = Promise_compare a b (fun x y w => (w, strict_eq x y)) rt) /\
  (let (a, rt1) := Promise_resolve (DNum 50) (boot w) in
   let (b, rt2) := Promise_resolve (DNum 25) rt1 in
   let (q, rt3) := Promise_compare a b divides rt2 in
   exists rt', runs_to h rt3 rt' /\ promise_state q rt' = Some (Fulfilled (DBool true))).
Proof.
  split; [|split; [reflexivity|]].
  - destruct sa as [[x|ea] | m [x|ea] | ], sb as [[y|eb] | n [y|eb] | ];
      simpl in Ha, Hb; unfold settles, no_later; cbv beta iota.
    all: try (destruct (Nat.leb_spec m n)).
    all: setup.
    all: try destruct (comparator x y w) as [w' r] eqn:Hp.
    all: eexists; (split; [ first [play_by Hp | play] | simpl; split; reflexivity ]).
  - setup. eexists. split; [play | reflexivity].
Qed.


(** Claim C8.  [finally(onFinally)] calls the finalizer once, when the
    source settles.  If the finalizer returns a value that is not a promise,
    or a promise that succeeds, the result settles as the source did, with
    the source's own value; if the finalizer throws, or returns a promise
    that fails, the result fails with that exception or failure instead. *)
Theorem finally_spec (src : Source) (r : Finalizer) (onFinally : Thunk) w w' h
    (Hs : settles_at src <= h) (Hr : awaited_at r <= h)
    (Hf : onFinally w = (w', fst (finalizer r (boot w)))) :
  let (ret, rt0) := finalizer r (boot w) in
  let (this, rt1) := source src rt0 in
  let (q, rt2) := Promise_finally this onFinally rt1 in
  exists rt', runs_to h rt2 rt' /\
    match settles src with
    | Some s => world rt' = w' /\ promise_state q rt' = Some (finalized s r)
    | None => world rt' = w /\ promise_state q rt' = Some Pending
    end.
Proof.
  destruct src as [[x|e] | m [x|e] | ], r as [u|e'|[[y|e']|n [y|e']|]];
    simpl in Hs, Hr; unfold settles, finalized, outcome, settles; cbv beta iota.
  all: try (destruct (Nat.leb_spec n m)).
  all: vm_compute in Hf; setup.
  all: eexists; (split; [ first [play_by Hf | play] | simpl; split; reflexivity ]).
Qed.



End Claims.

(** * The claims at concrete inputs *)

(** Claim C1.  [DeferredPromise.fromCallable] (and with it
    [Promise.fromCallableDeferred]) calls the function while the
    DeferredPromise is being built, and never again: with a function that
    counts its calls, the count is 1 before anything is attached and still 1
    after two attachments have run to completion.  What the function
    returned, or threw, is what every attachment settles with.  In general
    the call is made by the factory, on the world it is given, and the
    supplier it stores calls no user code. *)
Theorem fromCallable_runs_executor_at_construction (v : Data) (e : Value) (h : nat) :
  (let (d, st0) := Promise_fromCallableDeferred (counting (Normal v)) (boot 0) in
   let (p1, st1) := DeferredPromise_then d None None st0 in
   let (p2, st2) := DeferredPromise_then d None None st1 in
   world st0 = 1 /\
   exists st', runs_to h st2 st' /\ world st' = 1 /\
     promise_state p1 st' = Some (Fulfilled v) /\
     promise_state p2 st' = Some (Fulfilled v)) /\
  (let (d, st0) := Promise_fromCallableDeferred (counting (Throw e)) (boot 0) in
   let (p1, st1) := DeferredPromise_then d None None st0 in
   let (p2, st2) := DeferredPromise_then d None None st1 in
   world st0 = 1 /\
   exists st', runs_to h st2 st' /\ world st' = 1 /\
     promise_state p1 st' = Some (Rejected e) /\
     promise_state p2 st' = Some (Rejected e)) /\
  (forall (W : Type) (executor : @Thunk W) (st : @Runtime W),
     let (d, st') := DeferredPromise_fromCallable executor st in
     world st' = fst (executor (world st)) /\
     forall w : W, invoke (_supplier d) w = w).
Proof.
  split; [|split].
  1, 2: setup; (split; [reflexivity|]); eexists;
    (split; [play | split; [|split]; reflexivity]).
  intros W executor st. unfold DeferredPromise_fromCallable.
  destruct (executor (world st)) as [w [x|x]]; split; reflexivity.
Qed.

(** Claim C2 as stated fails at a value that is a promise: with [p]
    rejected with ["E"], two attachments to [DeferredPromise.resolve(p)]
    deliver nothing to the continuation, and both results are rejected. *)
Lemma resolve_with_rejected_promise_delivers_nothing :
  let record : Value -> list Value -> list Value := cons in
  let (p, st0) := Promise_reject (DStr "E") (boot []) in
  let d := DeferredPromise_resolve (VPromise p) in
  let (p1, st1) := DeferredPromise_then d (Some (FnUser (observe record))) None st0 in
  let (p2, st2) := DeferredPromise_then d (Some (FnUser (observe record))) None st1 in
  world (run 20 0 st2) = [] /\
  promise_state p1 (run 20 0 st2) = Some (Rejected (DStr "E")) /\
  promise_state p2 (run 20 0 st2) = Some (Rejected (DStr "E")) /\
  idle 0 (run 20 0 st2).
Proof. vm_compute. repeat split. Qed.

Lemma retry_without_tester_witness :
  flaky 0 = (1, fails_with (DStr "first")) /\
  let (r, rt) := DeferredPromise_retry (mkDeferred (ExUser flaky)) None (boot 0) in
  exists rt', runs_to 0 rt rt' /\
    promise_state r rt' = Some (Fulfilled (DNum 7)) /\ world rt' = 3.
Proof.
  split; [reflexivity|].
  pose proof (retry_without_tester flaky 0 1 2 3 false true (DStr "first") (DStr "second")
                (DNum 7) 0 eq_refl eq_refl eq_refl) as [H _].
  same_scenario H. exact H.
Defined.

Lemma retry_with_tester_witness :
  twice_only 2%Z (DNum 2) (2, 1) = ((2, 2), false) /\
  let (r, rt0) :=
    DeferredPromise_retry (mkDeferred (ExUser failing)) (Some twice_only) (boot (0, 0)) in
  exists rt', runs_to 0 rt0 rt' /\
    promise_state r rt' = Some (Rejected (DNum 2)) /\ world rt' = (2, 2).
Proof.
  split; [reflexivity|].
  pose proof (retry_with_tester failing twice_only (0, 0) (1, 0) (1, 1) (2, 1) (2, 2)
                false false (DNum 1) (DNum 2) 0 (ExUser failing) 0 0%Z (DNum 9)
                (snd (alloc_cell (DNum 0) (boot (0, 0))))
                eq_refl eq_refl eq_refl eq_refl eq_refl) as [H _].
  same_scenario H. exact H.
Defined.

(** Claim C5 as stated fails at [NaN]: a source resolved with [NaN], asked
    whether it contains [NaN], answers [false]. *)
Lemma contains_NaN_is_false :
  let (this, st1) := source (Already (Success DNaN)) (boot tt) in
  let (q, st2) := Promise_contains this DNaN None st1 in
  promise_state q (run 10 0 st2) = Some (Fulfilled (DBool false)) /\
  promise_state q (run 10 0 st2) <> Some (Fulfilled (DBool true)) /\
  idle 0 (run 10 0 st2).
Proof. vm_compute. split; [reflexivity | split; [discriminate | reflexivity]]. Qed.

Lemma contains_spec_witness :
  settles_at (Already (Success (DNum 5))) <= 0 /\
  let (this, st1) := source (Already (Success (DNum 5))) (boot 0) in
  let (q, st2) := Promise_contains this (DNum 5) None st1 in
  exists st', runs_to 0 st2 st' /\ promise_state q st' = Some (Fulfilled (DBool true)).
Proof.
  split; [simpl; lia|].
  pose proof (contains_spec (Already (Success (DNum 5))) (DNum 5)
                (fun x y n => (S n, strict_eq x y)) 0 0 (Nat.le_refl 0)) as (_ & H & _).
  same_scenario H. exact H.
Defined.

Lemma compare_spec_witness :
  settles_at (After 3 (Success (DNum 25))) <= 3 /\
  let (a, st1) := source (Already (Success (DNum 50))) (boot 0) in
  let (b, st2) := source (After 3 (Success (DNum 25))) st1 in
  let (q, st3) := Promise_compare a b divides st2 in
  exists st', runs_to 3 st3 st' /\
    promise_state q st' = Some (Fulfilled (DBool true)) /\ world st' = 0.
Proof.
  split; [simpl; lia|].
  pose proof (compare_spec (Already (Success (DNum 50))) (After 3 (Success (DNum 25)))
                divides 0 3 (Nat.le_0_l 3) (Nat.le_refl 3)) as [H _].
  same_scenario H. exact H.
Defined.



Lemma finally_spec_witness :
  counting (Normal (DNum 1)) 0 = (1, Normal (DNum 1)) /\
  let (ret, st0) := finalizer (Returns (DNum 1)) (boot 0) in
  let (this, st1) := source (Already (Failure (DStr "E"))) st0 in
  let (q, st2) := Promise_finally this (counting (Normal (DNum 1))) st1 in
  exists st', runs_to 0 st2 st' /\
    world st' = 1 /\ promise_state q st' = Some (Rejected (DStr "E")).
Proof.
  split; [reflexivity|].
  pose proof (finally_spec (Already (Failure (DStr "E"))) (Returns (DNum 1))
                (counting (Normal (DNum 1))) 0 1 0 (Nat.le_refl 0) (Nat.le_refl 0) eq_refl)
    as H.
  same_scenario H. exact H.
Defined.




(** * More of px.js *)

(** The scenario is computed one binding at a time. *)
Ltac setup_vm :=
  repeat (lazymatch goal with |- (let (_, _) := ?t in _) =>
            let E := fresh in
            eassert (E : t = _) by crunch; rewrite E; clear E; cbv beta iota end).

(** The state a run starts from is computed first. *)
Ltac enter :=
  cbv zeta;
  match goal with |- context [runs_to _ ?r _] =>
    let E := fresh in
    eassert (E : r = _) by crunch; rewrite E; clear E end.

Section More.

Context {W : Type}.
Implicit Types (rt : @Runtime W) (w : W) (h : nat) (gs : list bool) (j : @Job W).

(** ** Facts about the host *)

Lemma strict_eq_sym (x y : Value) : strict_eq x y = strict_eq y x.
Proof.
  destruct x as [[]|], y as [[]|]; simpl; try reflexivity;
    first [apply Nat.eqb_sym | apply Z.eqb_sym | apply String.eqb_sym | idtac].
  by destruct b, b0.
Qed.

Lemma Promise_resolve_spec (v : Data) rt :
  fst (Promise_resolve v rt) = length (promises rt) /\
  promise_state (length (promises rt)) (snd (Promise_resolve v rt)) = Some (Fulfilled v) /\
  world (snd (Promise_resolve v rt)) = world rt.
Proof.
  unfold Promise_resolve, new_capability, alloc_cell, promise_resolve_fn, cell_true,
    read_cell, write_cell, settle, promise_state.
  cbn. rewrite lookup_app_r, Nat.sub_diag by lia. cbn.
  rewrite lookup_app_r, Nat.sub_diag by lia. cbn.
  rewrite list_lookup_insert_eq by (rewrite length_app; simpl; lia).
  repeat split.
Qed.

Lemma world_all_register values remaining (c : Capability) (acc : nat * @Runtime W) next :
  world (snd (all_register values remaining c acc next)) = world (snd acc).
Proof.
  destruct acc as [i rt]. unfold all_register, alloc_cell. cbn [fst snd].
  match goal with |- context [promise_then ?p ?f ?g ?r] =>
    pose proof (promise_then_spec p f g r) as (_ & Hw & _);
    destruct (promise_then p f g r) as [q rt1] end.
  cbn [fst snd] in *. rewrite Hw. by destruct (read_cell remaining _).
Qed.

Lemma world_all_registers values remaining (c : Capability) items (acc : nat * @Runtime W) :
  world (snd (foldl (all_register values remaining c) acc items)) = world (snd acc).
Proof.
  revert acc. induction items as [|a l IH]; intros acc; simpl; [reflexivity|].
  by rewrite IH, world_all_register.
Qed.

Lemma world_Promise_all items rt : world (snd (Promise_all items rt)) = world rt.
Proof.
  unfold Promise_all, new_capability, alloc_cell. cbn [fst snd].
  match goal with |- context [foldl (all_register ?v ?r ?c) ?a items] =>
    pose proof (world_all_registers v r c items a) as Hw;
    destruct (foldl (all_register v r c) a items) as [n rt1] end.
  cbn [snd world] in Hw. destruct (read_cell _ rt1) as [| |n'| | | | |]; try exact Hw.
  destruct (Z.eqb _ _); cbn [snd]; rewrite ?world_resolve; exact Hw.
Qed.

Lemma stays_all_registers values remaining (c : Capability) items rt0
    (acc : nat * @Runtime W) :
  stays rt0 (snd acc) -> stays rt0 (snd (foldl (all_register values remaining c) acc items)).
Proof.
  revert acc. induction items as [|a l IH]; intros acc H; simpl; [exact H|].
  apply IH. destruct acc as [i rt]. unfold all_register, alloc_cell. cbn [fst snd] in *.
  match goal with |- context [promise_then ?p ?f ?g ?r] =>
    assert (H1 : stays rt0 r); [| apply (stays_then p f g) in H1;
    destruct (promise_then p f g r) as [q rt1]; exact H1 ] end.
  destruct (read_cell remaining _); (eapply stays_set; [reflexivity | exact H]).
Qed.

Lemma stays_Promise_all items rt0 rt : stays rt0 rt -> stays rt0 (snd (Promise_all items rt)).
Proof.
  intros H. apply stays_capability in H. unfold Promise_all.
  destruct (new_capability rt) as [c rt1]. unfold alloc_cell. cbn [fst snd] in *.
  match goal with |- context [foldl (all_register ?v ?r ?c') ?a items] =>
    pose proof (stays_all_registers v r c' items rt0 a) as Hs;
    destruct (foldl (all_register v r c') a items) as [n rt2] end.
  cbn [snd] in Hs.
  assert (H2 : stays rt0 rt2) by (apply Hs; eapply stays_set; [reflexivity | exact H]).
  destruct (read_cell _ rt2) as [| |n'| | | | |]; try exact H2.
  destruct (Z.eqb _ _); cbn [snd].
  - apply stays_resolve. eapply stays_set; [reflexivity | exact H2].
  - eapply stays_set; [reflexivity | exact H2].
Qed.

(** ** Factories of promises *)

(** Property X1.  [Promise.fromCallable] calls the function once, there and
    then, in any state of the runtime: a value that is not a promise gives
    a new promise fulfilled with it, an exception a new promise rejected
    with it, and a promise is handed back as it is, no promise being made. *)
Theorem Promise_fromCallable_eager (executor : Thunk) rt :
  let (w, result) := executor (world rt) in
  let (p, rt') := Promise_fromCallable executor rt in
  world rt' = w /\
  match result with
  | Normal (VData v) =>
      p = length (promises rt) /\ promise_state p rt' = Some (Fulfilled v)
  | Normal (VPromise q) =>
      p = q /\ promises rt' = promises rt /\ microtasks rt' = microtasks rt
  | Throw e =>
      p = length (promises rt) /\ promise_state p rt' = Some (Rejected e)
  end.
Proof.
  unfold Promise_fromCallable. destruct (executor (world rt)) as [w [[v|q]|e]].
  - destruct (Promise_resolve_spec v (set_world w rt)) as (Hf & Hs & Hw).
    destruct (Promise_resolve v (set_world w rt)) as [p rt']. cbn [fst snd] in *.
    subst p. repeat split; assumption.
  - repeat split.
  - destruct (Promise_reject_spec e (set_world w rt)) as (Hf & Hs & Hw & _).
    destruct (Promise_reject e (set_world w rt)) as [p rt']. cbn [fst snd] in *.
    subst p. repeat split; assumption.
Qed.

(** Property X2.  [Promise.timer(amount)] is pending at every time before
    [amount] and fulfilled with 0 at every time from [amount] on. *)
Theorem Promise_timer_spec (amount : nat) w h :
  let (p, rt) := Promise_timer amount (boot w) in
  exists rt', runs_to h rt rt' /\ world rt' = w /\
    promise_state p rt' = Some (if Nat.ltb h amount then Pending else Fulfilled (DNum 0)).
Proof.
  destruct (Nat.ltb_spec h amount); setup;
    (eexists; split; [play | split; reflexivity]).
Qed.

(** Property X3.  [Promise.delayedResolve(value, amount)] is pending before
    [amount].  From then on it is fulfilled with [value] if that is not a
    promise; if it is one, the result follows it: it settles as that
    promise does, and stays pending if that promise never settles. *)
Theorem delayedResolve_spec (src : Source) (amount : nat) w h (Hh : settles_at src <= h) :
  (forall v : Data,
     let (q, rt) := Promise_delayedResolve v amount (boot w) in
     exists rt', runs_to h rt rt' /\
       promise_state q rt' = Some (if Nat.ltb h amount then Pending else Fulfilled v)) /\
  (let (p, rt1) := source src (boot w) in
   let (q, rt2) := Promise_delayedResolve (VPromise p) amount rt1 in
   exists rt', runs_to h rt2 rt' /\
     promise_state q rt' =
       Some (if Nat.ltb h amount then Pending else
             match settles src with
             | Some s => outcome s
             | None => Pending
             end)).
Proof.
  split.
  - intros v. destruct (Nat.ltb_spec h amount); setup;
      (eexists; split; [play | reflexivity]).
  - destruct src as [[x|e] | ms [x|e] | ]; simpl in Hh; unfold settles, outcome;
      destruct (Nat.ltb_spec h amount); try destruct (Nat.leb_spec ms amount).
    all: try lia.
    all: setup.
    all: eexists; (split; [play | reflexivity]).
Qed.

(** Property X4.  [Promise.delayedReject(value, amount)] is pending before
    [amount] and rejected with [value] from then on, whatever [value] is: a
    promise given as the value is the reason itself, it is not followed. *)
Theorem delayedReject_spec (value : Value) (amount : nat) w h :
  let (q, rt) := Promise_delayedReject value amount (boot w) in
  exists rt', runs_to h rt rt' /\
    promise_state q rt' = Some (if Nat.ltb h amount then Pending else Rejected value).
Proof.
  destruct (Nat.ltb_spec h amount); setup; (eexists; split; [play | reflexivity]).
Qed.

(** ** DeferredPromise *)

(** Property X5.  On [DeferredPromise.reject(e)] a success continuation is
    never called and the derived promise is rejected with [e]; [catch]
    delivers [e] to its handler, once per attachment, each attachment giving
    a promise of its own that is fulfilled when the handler has returned. *)
Theorem DeferredPromise_reject_spec (e : Value) (record : Value -> W -> W) w h :
  let d := DeferredPromise_reject e in
  let k := Some (FnUser (observe record)) in
  (let (p, rt) := DeferredPromise_then d k None (boot w) in
   exists rt', runs_to h rt rt' /\
     world rt' = w /\ promise_state p rt' = Some (Rejected e)) /\
  (let (p1, rt1) := DeferredPromise_catch d k (boot w) in
   let (p2, rt2) := DeferredPromise_catch d k rt1 in
   exists rt', runs_to h rt2 rt' /\
     world rt' = record e (record e w) /\ p1 <> p2 /\
     promise_state p1 rt' = Some (Fulfilled DUndefined) /\
     promise_state p2 rt' = Some (Fulfilled DUndefined)).
Proof.
  split.
  - setup. eexists. split; [play | split; reflexivity].
  - setup. eexists.
    split; [play | split; [reflexivity | split; [discriminate | split; reflexivity]]].
Qed.

(** Property X6.  [DeferredPromise.resolve(p)] with [p] a promise: each
    [toPromise()] gives a new promise, different from [p] and from the
    other, that follows [p]; so it fails when [p] fails and never settles
    when [p] never does. *)
Theorem DeferredPromise_resolve_promise (src : Source) w h (Hh : settles_at src <= h) :
  let (p, rt0) := source src (boot w) in
  let d := DeferredPromise_resolve (VPromise p) in
  let (q1, rt1) := DeferredPromise_toPromise d rt0 in
  let (q2, rt2) := DeferredPromise_toPromise d rt1 in
  exists rt', runs_to h rt2 rt' /\
    q1 <> p /\ q2 <> p /\ q1 <> q2 /\
    promise_state q1 rt' = promise_state p rt' /\
    promise_state q2 rt' = promise_state p rt' /\
    promise_state p rt' = Some match settles src with
                               | Some s => outcome s
                               | None => Pending
                               end.
Proof.
  destruct src as [[x|e] | ms [x|e] | ]; simpl in Hh; unfold settles, outcome; setup.
  all: eexists;
    (split; [play | repeat (split; [first [discriminate | reflexivity]|]); reflexivity]).
Qed.

(** Property X7.  Nothing is remembered between two [toPromise()] calls:
    the supplier is run for each, and each promise settles as its own run of
    the supplier did, even if the two runs differ. *)
Theorem DeferredPromise_toPromise_independent (f : PromiseExecutor) (s1 s2 : Settlement)
    (w0 w1 w2 : W)
    (H1 : f w0 = (w1, now s1)) (H2 : f w1 = (w2, now s2)) :
  let d := mkDeferred (ExUser f) in
  let (p1, rt1) := DeferredPromise_toPromise d (boot w0) in
  let (p2, rt2) := DeferredPromise_toPromise d rt1 in
  p1 <> p2 /\ world rt2 = w2 /\
  promise_state p1 rt2 = Some (outcome s1) /\
  promise_state p2 rt2 = Some (outcome s2).
Proof.
  destruct s1, s2; cbv zeta; start_by H1; start_by H2;
    (split; [discriminate | split; [reflexivity | split; reflexivity]]).
Qed.

(** Property X8.  [finally] on a DeferredPromise runs the supplier and then
    the finalizer, once each per attachment.  When the finalizer returns a
    value that is not a promise the result settles as the supplier did; when
    it throws, the result is rejected with the exception; and a later
    attachment leaves the result of an earlier one as it is. *)
Theorem DeferredPromise_finally_spec (f : PromiseExecutor) (onFinally : Thunk)
    (s : Settlement) (u : Data) (e : Value) (w0 w1 w2 w3 : W) h
    (Hf : f w0 = (w1, now s))
    (Hu : onFinally w1 = (w2, Normal u))
    (Hg : f w2 = (w3, now s))
    (He : onFinally w3 = (w3, Throw e)) :
  let d := mkDeferred (ExUser f) in
  let (p1, rt1) := DeferredPromise_finally d onFinally (boot w0) in
  exists rt2, runs_to h rt1 rt2 /\
    world rt2 = w2 /\ promise_state p1 rt2 = Some (outcome s) /\
    let (p2, rt3) := DeferredPromise_finally d onFinally rt2 in
    exists rt4, runs_to h rt3 rt4 /\
      world rt4 = w3 /\ promise_state p2 rt4 = Some (Rejected e) /\
      promise_state p1 rt4 = Some (outcome s).
Proof.
  destruct s; cbv zeta; start_by Hf.
  all: eexists; split; [play_by Hu | split; [reflexivity | split; [reflexivity|]]].
  all: start_by Hg.
  all: eexists; split; [play_by He | split; [reflexivity | split; reflexivity]].
Qed.

(** ** PublishedPromise *)

(** Property X9.  All the continuations attached to a PublishedPromise share
    its one settlement: after [resolve(v)] the two attached before are
    handed [v], in the order they were attached, and one attached after the
    promise has settled is handed [v] as well. *)
Theorem PublishedPromise_shares_settlement (v : Data) (r1 r2 r3 : Value -> W -> W) w h :
  let (this, rt0) := Promise_publish None (boot w) in
  let (q1, rt1) := PublishedPromise_then this (Some (FnUser (observe r1))) None rt0 in
  let (q2, rt2) := PublishedPromise_then this (Some (FnUser (observe r2))) None rt1 in
  exists rt3, runs_to h (PublishedPromise_resolve this v rt2) rt3 /\
    world rt3 = r2 v (r1 v w) /\
    let (q3, rt4) := PublishedPromise_then this (Some (FnUser (observe r3))) None rt3 in
    exists rt5, runs_to h rt4 rt5 /\ world rt5 = r3 v (r2 v (r1 v w)).
Proof.
  setup. enter.
  eexists. split; [play | split; [reflexivity|]].
  setup. eexists. split; [play | reflexivity].
Qed.

(** Property X10.  [reject(e)] on a PublishedPromise rejects the promise
    that [toPromise()] gives with [e]; a handler attached with [catch] is
    handed [e] and its promise is fulfilled; a finalizer attached with
    [finally] runs once, after the handler, and its promise is rejected
    with [e]. *)
Theorem PublishedPromise_reject_spec (e : Value) (record : Value -> W -> W)
    (onFinally : Thunk) (u : Data) w w' h
    (Hfin : onFinally (record e w) = (w', Normal u)) :
  let (this, rt0) := Promise_publish None (boot w) in
  let (q1, rt1) := PublishedPromise_catch this (Some (FnUser (observe record))) rt0 in
  let (q2, rt2) := PublishedPromise_finally this onFinally rt1 in
  exists rt3, runs_to h (PublishedPromise_reject this e rt2) rt3 /\
    world rt3 = w' /\
    promise_state (PublishedPromise_toPromise this) rt3 = Some (Rejected e) /\
    promise_state q1 rt3 = Some (Fulfilled DUndefined) /\
    promise_state q2 rt3 = Some (Rejected e).
Proof.
  setup. enter.
  eexists. split; [play_by Hfin | repeat (split; [reflexivity|]); reflexivity].
Qed.

(** Property X11.  [resolve(p)] on a PublishedPromise, with [p] another
    promise, binds it to [p]: from then on [resolve] and [reject] change
    nothing, even while [p] is pending, and the promise settles as [p]
    does.  Resolved with its own promise, it is rejected at once with the
    host's chaining-cycle error. *)
Theorem PublishedPromise_resolve_promise (src : Source) (calls : list External) w h
    (Hh : settles_at src <= h) :
  (let (p, rt0) := source src (boot w) in
   let (this, rt1) := Promise_publish None rt0 in
   let rt2 := PublishedPromise_resolve this (VPromise p) rt1 in
   foldl (external this) rt2 calls = rt2 /\
   exists rt3, runs_to h rt2 rt3 /\
     promise_state (PublishedPromise_toPromise this) rt3 =
       Some match settles src with
            | Some s => outcome s
            | None => Pending
            end) /\
  (forall rt,
     let (this, rt1) := Promise_publish None rt in
     promise_state (PublishedPromise_toPromise this)
       (PublishedPromise_resolve this (VPromise (PublishedPromise_toPromise this)) rt1) =
     Some (Rejected (DError (next_oid rt) "Chaining cycle detected for promise"))).
Proof.
  split.
  - destruct src as [[x|e] | ms [x|e] | ]; simpl in Hh; unfold settles, outcome;
      setup; cbv zeta.
    all: match goal with |- context [runs_to _ ?r _] =>
      let r' := eval vm_compute in r in change r with r' end.
    all: split; [by apply external_noop|].
    all: eexists; (split; [play | reflexivity]).
  - intros rt. unfold Promise_publish, PublishedPromise_new, new_capability, alloc_cell,
      PublishedPromise_resolve, PublishedPromise_toPromise. cbn.
    unfold promise_resolve_fn, cell_true, read_cell. cbn.
    rewrite lookup_app_r, Nat.sub_diag by lia. cbn.
    rewrite Nat.eqb_refl. unfold new_error, promise_reject_fn, settle, promise_state. cbn.
    rewrite lookup_app_r, Nat.sub_diag by lia. cbn.
    rewrite list_lookup_insert_eq by (rewrite length_app; simpl; lia).
    reflexivity.
Qed.

(** Property X12.  A supplier that throws does not make the constructor of
    a PublishedPromise, or an attachment to a DeferredPromise, throw: the
    promise is rejected with the exception.  If the supplier has called
    [resolve] before it throws, the exception is lost and the promise is
    fulfilled. *)
Theorem supplier_exception (f g : PromiseExecutor) (v : Data) (e : Value) (w w1 w2 : W)
    (Hf : f w = (w1, raises e))
    (Hg : g w = (w2, mkOutcome [CallResolve v] (Some e))) :
  (let (this, rt) := Promise_publish (Some (ExUser f)) (boot w) in
   promise_state (PublishedPromise_toPromise this) rt = Some (Rejected e)) /\
  (let (p, rt) := DeferredPromise_toPromise (mkDeferred (ExUser f)) (boot w) in
   promise_state p rt = Some (Rejected e)) /\
  (let (this, rt) := Promise_publish (Some (ExUser g)) (boot w) in
   promise_state (PublishedPromise_toPromise this) rt = Some (Fulfilled v)) /\
  (let (p, rt) := DeferredPromise_toPromise (mkDeferred (ExUser g)) (boot w) in
   promise_state p rt = Some (Fulfilled v)).
Proof.
  split; [|split; [|split]].
  - start_by Hf. reflexivity.
  - start_by Hf. reflexivity.
  - start_by Hg. reflexivity.
  - start_by Hg. reflexivity.
Qed.

(** ** [retry] *)

(** Property X13.  [retry] on a supplier that succeeds the first time
    instantiates it once and settles success with its value, with or
    without a tester, and the tester is not called.  With a tester that
    says no to the first failure, the supplier is instantiated once, the
    tester called once, with the count 1 and the failure value, and the
    result is rejected with that value. *)
Theorem retry_edges (f g : PromiseExecutor) (fn : RetryTester) (v : Data) (e : Value)
    (t : bool) (w0 w1 w2 w3 : W) h
    (Hf : f w0 = (w1, succeeds_with v))
    (Hg : g w0 = (w2, failure t e)) (Hn : fn 1%Z e w2 = (w3, false)) :
  (let (r, rt) := DeferredPromise_retry (mkDeferred (ExUser f)) None (boot w0) in
   exists rt', runs_to h rt rt' /\
     promise_state r rt' = Some (Fulfilled v) /\ world rt' = w1) /\
  (let (r, rt) := DeferredPromise_retry (mkDeferred (ExUser f)) (Some fn) (boot w0) in
   exists rt', runs_to h rt rt' /\
     promise_state r rt' = Some (Fulfilled v) /\ world rt' = w1) /\
  (let (r, rt) := DeferredPromise_retry (mkDeferred (ExUser g)) (Some fn) (boot w0) in
   exists rt', runs_to h rt rt' /\
     promise_state r rt' = Some (Rejected e) /\ world rt' = w3).
Proof.
  split; [|split].
  - start_by Hf. eexists. split; [play | split; reflexivity].
  - start_by Hf. eexists. split; [play | split; reflexivity].
  - destruct t; start_by Hg; eexists; (split; [play_by Hn | split; reflexivity]).
Qed.

(** *** A supplier that always fails *)

Lemma resub_fails (ex : Executor) rt :
  always_fails ex ->
  exists e rt',
    resub ex rt = (S (length (promises rt)), rt') /\
    promises rt' = promises rt ++ [mkPromise (Rejected e) []; mkPromise Pending []] /\
    microtasks rt' = microtasks rt ++
      [ReactionJob Reject (Some (FnRetryAlways ex))
         (mkCap (S (length (promises rt))) (S (length (cells rt)))) e] /\
    timers rt' = timers rt.
Proof.
  intros Hex.
  assert (Hrej : forall e (rt0 : @Runtime W),
    let rt1 := promise_reject_fn (mkCap (length (promises rt0)) (length (cells rt0))) e
                 (snd (new_capability rt0)) in
    promises rt1 = promises rt0 ++ [mkPromise (Rejected e) []] /\
    microtasks rt1 = microtasks rt0 /\
    cells rt1 = cells rt0 ++ [DBool true] /\
    timers rt1 = timers rt0).
  { intros e rt0. unfold promise_reject_fn, new_capability, alloc_cell, cell_true, read_cell,
      write_cell, settle. cbn.
    rewrite lookup_app_r, Nat.sub_diag by lia. cbn.
    rewrite lookup_app_r, Nat.sub_diag by lia. cbn.
    rewrite !insert_app_r_alt, !Nat.sub_diag by lia. cbn.
    by rewrite app_nil_r. }
  assert (Hnew : exists e rt1,
    new_Promise ex rt = (length (promises rt), rt1) /\
    promises rt1 = promises rt ++ [mkPromise (Rejected e) []] /\
    microtasks rt1 = microtasks rt /\
    cells rt1 = cells rt ++ [DBool true] /\
    timers rt1 = timers rt).
  { destruct ex as [f|v|e]; [| destruct Hex |].
    - destruct (Hex (world rt)) as (t & e & Hf). exists e.
      unfold new_Promise, run_executor. cbn [new_capability alloc_cell].
      cbn [world set_promises set_cells]. destruct (f (world rt)) as [w' out].
      cbn [snd] in Hf. subst out.
      pose proof (Hrej e (set_world w' rt)) as H. cbn in H.
      destruct t; cbn; eexists; (split; [reflexivity | exact H]).
    - exists e. unfold new_Promise, run_executor. cbn [new_capability alloc_cell].
      pose proof (Hrej e rt) as H. cbn in H.
      eexists; (split; [reflexivity | exact H]). }
  destruct Hnew as (e & rt1 & Hn & Hp & Hm & Hc & Ht). exists e.
  unfold resub. rewrite Hn. unfold promise_then, new_capability, alloc_cell.
  cbn [set_promises set_cells promises cells]. rewrite Hp, Hc.
  rewrite !length_app. cbn [length].
  rewrite <- (assoc_L (++)). cbn [app].
  rewrite lookup_app_r by lia. rewrite Nat.sub_diag. cbn.
  eexists. split; [f_equal; lia|]. cbn.
  split; [reflexivity|]. rewrite Hm. split; [do 4 f_equal; lia | exact Ht].
Qed.

Lemma spin_job_ext ex gs more j : spin_job ex gs j -> spin_job ex (gs ++ more) j.
Proof.
  destruct j as [[] [[]|] d x | p q]; simpl; try tauto.
  - intros [-> H]. split; [reflexivity | by apply lookup_app_l_Some].
  - intros H. by apply lookup_app_l_Some.
Qed.

Lemma Spin_step ex gs h rt :
  always_fails ex -> Spin ex gs rt ->
  exists gs' rt', step h rt = Some rt' /\ Spin ex gs' rt' /\ gs `prefix_of` gs' /\
    timers rt' = timers rt.
Proof.
  intros Hex [Hlen Hheap Hjobs Hbusy]. unfold step.
  destruct (microtasks rt) as [|j js] eqn:Hq; [by apply Exists_nil in Hbusy|].
  apply Forall_cons in Hjobs as [Hj Hjs].
  set (rt0 := set_microtasks js rt).
  destruct j as [[] [[]|] d x | p q]; simpl in Hj; try contradiction.
  - (* the failure handler of [resub] *)
    destruct Hj as [-> Hd].
    destruct (resub_fails ex rt0 Hex) as (e & rt1 & Hr & Hp & Hm & Ht).
    exists (gs ++ [false; true]).
    change (promises rt0) with (promises rt) in Hr, Hp.
    change (microtasks rt0) with js in Hm.
    cbn [run_job call_fn]. rewrite Hr.
    assert (Hlt : cap_promise d < length (promises rt))
      by (rewrite <- Hlen; by eapply lookup_lt_Some).
    assert (Hne : Nat.eqb (S (length (promises rt))) (cap_promise d) = false)
      by (apply Nat.eqb_neq; lia).
    assert (Hheap1 : forall p g rec, (gs ++ [false; true]) !! p = Some g ->
              (promises rt ++ [mkPromise (Rejected e) []; mkPromise Pending []]) !! p = Some rec ->
              spin_promise g rec).
    { intros p g rec Hg Hrec. destruct (decide (p < length gs)) as [Hlt'|Hge].
      - rewrite lookup_app_l in Hg by lia. rewrite lookup_app_l in Hrec by lia. by eapply Hheap.
      - rewrite lookup_app_r in Hg by lia. rewrite lookup_app_r in Hrec by lia. rewrite <- Hlen in Hrec.
        destruct (p - length gs) as [|[|n]]; simpl in *; try discriminate.
        + injection Hg as <-. injection Hrec as <-. by exists e.
        + injection Hg as <-. by injection Hrec as <-. }
    assert (Hnew : (gs ++ [false; true]) !! S (length (promises rt)) = Some true).
    { rewrite lookup_app_r by lia. by replace (S _ - _) with 1 by lia. }
    assert (Hjobs1 : Forall (spin_job ex (gs ++ [false; true])) (microtasks rt1)).
    { rewrite Hm. apply Forall_app. split.
      - eapply Forall_impl; [exact Hjs | intros j; apply spin_job_ext].
      - apply Forall_singleton. simpl. by split. }
    assert (Hbusy1 : Exists is_retry_job (microtasks rt1)).
    { rewrite Hm. apply Exists_app. right. by apply Exists_cons_hd. }
    unfold promise_resolve_fn. destruct (cell_true _ _).
    + eexists. split; [reflexivity|]. split; [|split; [by apply prefix_app_r | exact Ht]].
      split; try assumption.
      * rewrite Hp, !length_app. simpl. lia.
      * by rewrite Hp.
    + cbn [cap_promise]. rewrite Hne. eexists. split; [reflexivity|].
      split; [|split; [by apply prefix_app_r | exact Ht]].
      split; cbn.
      * rewrite Hp, !length_app. simpl. lia.
      * by rewrite Hp.
      * apply Forall_app. split; [exact Hjobs1 | by apply Forall_singleton].
      * apply Exists_app. by left.
  - (* adopting a pending promise *)
    exists (gs ++ [true]).
    assert (Hlt : q < length (promises rt)) by (rewrite <- Hlen; by eapply lookup_lt_Some).
    destruct (lookup_lt_is_Some_2 _ _ Hlt) as [[st rs] Hrec].
    pose proof (Hheap q true _ Hj Hrec) as Hst. simpl in Hst. subst st.
    cbn [run_job alloc_cell]. unfold promise_then, new_capability, alloc_cell.
    cbn [set_promises set_cells promises cells rt0 set_microtasks].
    rewrite (lookup_app_l_Some _ _ _ _ Hrec). cbn [snd].
    eexists. split; [reflexivity|]. split; [|split; [by apply prefix_app_r | reflexivity]].
    split; cbn.
    + rewrite length_insert, !length_app. simpl. lia.
    + intros p' g rec Hg Hrec'. destruct (decide (p' = q)) as [->|Hpq].
      * rewrite list_lookup_insert_eq in Hrec' by (rewrite length_app; simpl; lia).
        injection Hrec' as <-. rewrite (lookup_app_l_Some _ _ _ _ Hj) in Hg.
        by injection Hg as <-.
      * rewrite list_lookup_insert_ne in Hrec' by congruence.
        destruct (decide (p' < length gs)) as [Hlt'|Hge].
        -- rewrite lookup_app_l in Hg by lia. rewrite lookup_app_l in Hrec' by lia. by eapply Hheap.
        -- rewrite lookup_app_r in Hg by lia. rewrite lookup_app_r in Hrec' by lia. rewrite <- Hlen in Hrec'.
           destruct (p' - length gs) as [|n]; simpl in *; try discriminate.
           injection Hg as <-. by injection Hrec' as <-.
    + eapply Forall_impl; [exact Hjs | intros j; apply spin_job_ext].
    + apply Exists_cons in Hbusy as [[]|H]. exact H.
Qed.

Lemma Spin_run ex gs h fuel rt :
  always_fails ex -> Spin ex gs rt ->
  exists gs', Spin ex gs' (run fuel h rt) /\ gs `prefix_of` gs' /\
    timers (run fuel h rt) = timers rt.
Proof.
  intros Hex. revert gs rt. induction fuel as [|n IH]; intros gs rt HS; simpl.
  - by exists gs.
  - destruct (Spin_step ex gs h rt Hex HS) as (gs1 & rt1 & -> & HS1 & Hpre & Ht).
    destruct (IH gs1 rt1 HS1) as (gs2 & HS2 & Hpre2 & Ht2).
    exists gs2. split; [exact HS2 | split; [by etrans | congruence]].
Qed.

Lemma Spin_pending ex gs gs' rt p :
  Spin ex gs' rt -> gs `prefix_of` gs' -> gs !! p = Some true ->
  promise_state p rt = Some Pending.
Proof.
  intros [Hlen Hheap _ _] Hpre Hp.
  pose proof (prefix_lookup_Some _ _ _ _ Hp Hpre) as Hp'.
  assert (Hlt : p < length (promises rt)) by (rewrite <- Hlen; by eapply lookup_lt_Some).
  destruct (lookup_lt_is_Some_2 _ _ Hlt) as [rec Hrec].
  unfold promise_state. rewrite Hrec. simpl. f_equal.
  exact (Hheap p true rec Hp' Hrec).
Qed.

Lemma Spin_busy ex gs h rt : Spin ex gs rt -> ~ idle h rt.
Proof.
  intros [_ _ _ Hbusy]. unfold idle, step.
  destruct (microtasks rt); [by apply Exists_nil in Hbusy | discriminate].
Qed.

(** Property X14.  [retry()] without a tester on a supplier that fails at
    once every time it is instantiated: the loop always has a microtask to
    run, so that it never comes to rest and never gets to a timer.  A timer
    set before the call never fires, however far the time horizon is, its
    promise and the result of [retry()] being pending for ever. *)
Theorem retry_starves_timers (supplier : Executor) (amount : nat) w (fuel h : nat)
    (Hex : always_fails supplier) :
  let (t, rt0) := Promise_timer amount (boot w) in
  let (r, rt) := DeferredPromise_retry (mkDeferred supplier) None rt0 in
  ~ idle h (run fuel h rt) /\
  timers (run fuel h rt) = timers rt0 /\
  promise_state t (run fuel h rt) = Some Pending /\
  promise_state r (run fuel h rt) = Some Pending.
Proof.
  unfold Promise_timer, DeferredPromise_retry. cbn.
  match goal with |- context [resub supplier ?r] => set (rt0 := r) end.
  destruct (resub_fails supplier rt0 Hex) as (e & rt & -> & Hp & Hm & Ht).
  assert (HS : Spin supplier [true; false; true] rt).
  { split.
    - by rewrite Hp.
    - rewrite Hp. intros [|[|[|p]]] g rec Hg Hrec; simpl in *; try discriminate;
        injection Hg as <-; injection Hrec as <-; simpl; eauto.
    - rewrite Hm. apply Forall_singleton. by split.
    - rewrite Hm. by apply Exists_cons_hd. }
  destruct (Spin_run supplier _ h fuel rt Hex HS) as (gs' & HS' & Hpre & Ht').
  split; [by eapply Spin_busy|]. split; [rewrite Ht', Ht; reflexivity|].
  split; by eapply Spin_pending.
Qed.

(** ** Extensions of Promise *)

Lemma compare_both_ways (sa sb : Source) (comparator : BiTester) (x y : Data)
    (r1 r2 r3 : bool) w h
    (Ha : settles sa = Some (Success x)) (Hb : settles sb = Some (Success y))
    (Hah : settles_at sa <= h) (Hbh : settles_at sb <= h)
    (H1 : comparator x y w = (w, r1)) (H2 : comparator y x w = (w, r2))
    (H3 : comparator x x w = (w, r3)) :
  let (a, rt1) := source sa (boot w) in
  let (b, rt2) := source sb rt1 in
  let (q1, rt3) := Promise_compare a b comparator rt2 in
  let (q2, rt4) := Promise_compare b a comparator rt3 in
  let (q3, rt5) := Promise_compare a a comparator rt4 in
  exists rt', runs_to h rt5 rt' /\
    promise_state q1 rt' = Some (Fulfilled (DBool r1)) /\
    promise_state q2 rt' = Some (Fulfilled (DBool r2)) /\
    promise_state q3 rt' = Some (Fulfilled (DBool r3)).
Proof.
  destruct sa as [[x'|?] | m [x'|?] | ]; try discriminate Ha;
    destruct sb as [[y'|?] | n [y'|?] | ]; try discriminate Hb;
    simpl in Ha, Hb, Hah, Hbh.
  all: injection Ha as ->; injection Hb as ->.
  all: try destruct (Nat.leb_spec m n).
  all: setup_vm.
  all: eexists; (split; [ repeat first [tick_by H1 | tick_by H2 | tick_by H3 | tick]; halt
                        | split; [|split]; reflexivity]).
Qed.

(** Property X15.  On two promises that succeed, with [x] and [y],
    [Promise.equals] answers [x === y] whichever way round they are given;
    and a promise compared with itself answers [true] unless its value is
    [NaN]. *)
Theorem equals_symmetric (sa sb : Source) (x y : Data) w h
    (Ha : settles sa = Some (Success x)) (Hb : settles sb = Some (Success y))
    (Hah : settles_at sa <= h) (Hbh : settles_at sb <= h) :
  let (a, rt1) := source sa (boot w) in
  let (b, rt2) := source sb rt1 in
  let (q1, rt3) := Promise_equals a b rt2 in
  let (q2, rt4) := Promise_equals b a rt3 in
  let (q3, rt5) := Promise_equals a a rt4 in
  exists rt', runs_to h rt5 rt' /\
    promise_state q1 rt' = Some (Fulfilled (DBool (strict_eq x y))) /\
    promise_state q2 rt' = Some (Fulfilled (DBool (strict_eq x y))) /\
    promise_state q3 rt' = Some (Fulfilled (DBool (negb (is_nan x)))).
Proof.
  pose proof (compare_both_ways sa sb (fun x y w => (w, strict_eq x y)) x y
                _ _ _ w h Ha Hb Hah Hbh eq_refl eq_refl eq_refl) as H.
  rewrite (strict_eq_sym y x), (strict_eq_self x) in H.
  unfold Promise_equals. exact H.
Qed.

(** Property X16.  No combinator calls the function it is given while it
    is being applied, whatever the state of the promises it is applied to,
    settled ones included: the tester, the comparator and the finalizer are
    only ever called from a microtask. *)
Theorem combinators_call_back_later (this a b : nat) (value : Value) (amount : nat)
    (bipredicate comparator : BiTester) (onFinally : Thunk) rt :
  world (snd (Promise_contains this value (Some bipredicate) rt)) = world rt /\
  world (snd (Promise_compare a b comparator rt)) = world rt /\
  world (snd (Promise_finally this onFinally rt)) = world rt /\
  world (snd (Promise_timeout this amount rt)) = world rt.
Proof.
  split; [|split; [|split]].
  - apply promise_then_spec.
  - unfold Promise_compare. pose proof (world_Promise_all [a; b] rt) as Hw.
    destruct (Promise_all [a; b] rt) as [all rt1]. cbn [snd] in Hw.
    rewrite <- Hw. apply promise_then_spec.
  - apply promise_then_spec.
  - unfold Promise_timeout, alloc_cell.
    match goal with |- context [promise_then ?p ?f ?g ?r] =>
      pose proof (promise_then_spec p f g r) as (_ & Hw & _);
      destruct (promise_then p f g r) as [q rt1] end.
    cbn [snd] in *. exact Hw.
Qed.

(** Property X17.  A promise that is settled keeps its state through every
    operation of px.js: attaching to a DeferredPromise or retrying it,
    [contains], [compare], [equals], [timeout], the factories [timer],
    [delayedResolve], [delayedReject] and [fromCallable], and [publish]
    with its supplier. *)
Theorem settled_promises_stay (p : nat) (st : PState) rt
    (d : DeferredPromise) (res rej : option Fn) (fin : Thunk) (fn : option RetryTester)
    (this a b : nat) (value : Value) (bipredicate : option BiTester)
    (comparator : BiTester) (amount : nat) (executor : Thunk) (supplier : option Executor)
    (Hp : promise_state p rt = Some st) (Hst : st <> Pending) :
  (promise_state p (snd (DeferredPromise_then d res rej rt)) = Some st /\
   promise_state p (snd (DeferredPromise_catch d rej rt)) = Some st /\
   promise_state p (snd (DeferredPromise_finally d fin rt)) = Some st /\
   promise_state p (snd (DeferredPromise_toPromise d rt)) = Some st /\
   promise_state p (snd (DeferredPromise_retry d fn rt)) = Some st) /\
  (promise_state p (snd (Promise_contains this value bipredicate rt)) = Some st /\
   promise_state p (snd (Promise_compare a b comparator rt)) = Some st /\
   promise_state p (snd (Promise_equals a b rt)) = Some st /\
   promise_state p (snd (Promise_timeout this amount rt)) = Some st /\
   promise_state p (snd (Promise_timer amount rt)) = Some st /\
   promise_state p (snd (Promise_delayedResolve value amount rt)) = Some st /\
   promise_state p (snd (Promise_delayedReject value amount rt)) = Some st /\
   promise_state p (snd (Promise_fromCallable executor rt)) = Some st /\
   promise_state p (snd (Promise_publish supplier rt)) = Some st).
Proof.
  assert (Hset : forall rt1 rt2, promises rt2 = promises rt1 -> stays rt rt1 -> stays rt rt2)
    by (intros rt1 rt2 E H; exact (stays_set rt rt1 rt2 E H)).
  assert (Hnew : forall ex, stays rt (snd (new_Promise ex rt)))
    by (intros ex; apply stays_new_Promise, stays_refl).
  assert (Hcap : stays rt (snd (new_capability rt)))
    by apply stays_capability, stays_refl.
  split.
  - unfold DeferredPromise_then, DeferredPromise_catch, DeferredPromise_finally,
      DeferredPromise_toPromise, DeferredPromise_retry, resub, resub_test.
    specialize (Hnew (_supplier d)).
    split; [|split; [|split; [|split]]].
    + destruct (new_Promise _ rt) as [q rt1]. exact (stays_then _ _ _ _ _ Hnew p st Hp Hst).
    + destruct (new_Promise _ rt) as [q rt1]. exact (stays_then _ _ _ _ _ Hnew p st Hp Hst).
    + destruct (new_Promise _ rt) as [q rt1]. exact (stays_then _ _ _ _ _ Hnew p st Hp Hst).
    + exact (Hnew p st Hp Hst).
    + destruct fn as [fn|].
      * unfold alloc_cell.
        match goal with |- context [new_Promise ?ex ?r] =>
          pose proof (stays_new_Promise ex rt r (Hset rt r eq_refl (stays_refl rt))) as H1;
          destruct (new_Promise ex r) as [q rt1] end.
        exact (stays_then _ _ _ _ _ H1 p st Hp Hst).
      * destruct (new_Promise _ rt) as [q rt1]. exact (stays_then _ _ _ _ _ Hnew p st Hp Hst).
  - assert (Hcmp : forall cmp, promise_state p (snd (Promise_compare a b cmp rt)) = Some st).
    { intros cmp. unfold Promise_compare.
      pose proof (stays_Promise_all [a; b] rt rt (stays_refl rt)) as H1.
      destruct (Promise_all [a; b] rt) as [all rt1].
      exact (stays_then _ _ _ _ _ H1 p st Hp Hst). }
    split; [|split; [|split; [|split; [|split; [|split; [|split; [|split]]]]]]].
    + destruct bipredicate; exact (stays_then _ _ _ _ _ (stays_refl rt) p st Hp Hst).
    + apply Hcmp.
    + apply Hcmp.
    + unfold Promise_timeout, alloc_cell.
      match goal with |- context [promise_then ?q ?f ?g ?r] =>
        pose proof (stays_then q f g rt r (Hset rt r eq_refl (stays_refl rt))) as H1;
        destruct (promise_then q f g r) as [q1 rt1] end.
      cbn [snd] in H1. apply stays_capability in H1.
      destruct (new_capability rt1) as [c rt2]. cbn [snd] in H1.
      exact (Hset rt2 _ eq_refl H1 p st Hp Hst).
    + unfold Promise_timer. destruct (new_capability rt) as [c rt1]. cbn [snd] in Hcap.
      exact (Hset rt1 _ eq_refl Hcap p st Hp Hst).
    + unfold Promise_delayedResolve. destruct (new_capability rt) as [c rt1].
      cbn [snd] in Hcap.
      exact (Hset rt1 _ eq_refl Hcap p st Hp Hst).
    + unfold Promise_delayedReject. destruct (new_capability rt) as [c rt1].
      cbn [snd] in Hcap.
      exact (Hset rt1 _ eq_refl Hcap p st Hp Hst).
    + unfold Promise_fromCallable. destruct (executor (world rt)) as [w [v|e]].
      * exact (stays_Promise_resolve v rt (set_world w rt)
                 (Hset rt (set_world w rt) eq_refl (stays_refl rt)) p st Hp Hst).
      * exact (stays_Promise_reject e rt (set_world w rt)
                 (Hset rt (set_world w rt) eq_refl (stays_refl rt)) p st Hp Hst).
    + unfold Promise_publish, PublishedPromise_new. destruct (new_capability rt) as [c rt1].
      cbn [snd] in Hcap.
      destruct supplier as [ex|]; [|exact (Hcap p st Hp Hst)].
      pose proof (stays_run_executor ex c rt rt1 Hcap) as H1.
      destruct (run_executor ex c rt1) as [rt2 [e|]]; cbn [fst snd] in *.
      * exact (stays_reject c e rt rt2 H1 p st Hp Hst).
      * exact (H1 p st Hp Hst).
Qed.

(** Property X18.  [timeout] on the promise of a PublishedPromise that is
    resolved from outside: resolved before the timer expires, the result is
    fulfilled with the value once the timer has expired; resolved after,
    the result is rejected with the timeout error already and stays so,
    though the promise itself is fulfilled. *)
Theorem timeout_of_published (v : Data) (amount h1 h2 : nat) w (H12 : h1 <= h2) :
  let (this, rt0) := Promise_publish None (boot w) in
  let (q, rt1) := Promise_timeout (PublishedPromise_toPromise this) amount rt0 in
  exists rt2, runs_to h1 rt1 rt2 /\
    promise_state q rt2 =
      Some (if Nat.ltb h1 amount then Pending else Rejected timeout_error) /\
    exists rt3, runs_to h2 (PublishedPromise_resolve this v rt2) rt3 /\
      promise_state (PublishedPromise_toPromise this) rt3 = Some (Fulfilled v) /\
      promise_state q rt3 =
        Some (if Nat.ltb h1 amount
              then if Nat.ltb h2 amount then Pending else Fulfilled v
              else Rejected timeout_error).
Proof.
  destruct (Nat.ltb_spec h1 amount); [destruct (Nat.ltb_spec h2 amount)|].
  all: setup.
  all: eexists; (split; [play | split; [reflexivity|]]).
  all: enter.
  all: eexists; (split; [play | split; reflexivity]).
Qed.

End More.

(** * The properties at concrete inputs *)

Lemma delayedResolve_spec_witness :
  settles_at (After 2 (Failure (DStr "E"))) <= 5 /\
  let (p, st1) := source (After 2 (Failure (DStr "E"))) (boot 0) in
  let (q, st2) := Promise_delayedResolve (VPromise p) 5 st1 in
  exists st', runs_to 5 st2 st' /\ promise_state q st' = Some (Rejected (DStr "E")).
Proof.
  assert (Hh : settles_at (After 2 (Failure (DStr "E"))) <= 5) by (simpl; lia).
  split; [exact Hh|].
  pose proof (delayedResolve_spec (After 2 (Failure (DStr "E"))) 5 0 5 Hh) as [_ H].
  same_scenario H. exact H.
Defined.

Lemma DeferredPromise_resolve_promise_witness :
  settles_at (Already (Failure (DStr "E"))) <= 0 /\
  let (p, st0) := source (Already (Failure (DStr "E"))) (boot 0) in
  let (q1, st1) := DeferredPromise_toPromise (DeferredPromise_resolve (VPromise p)) st0 in
  let (q2, st2) := DeferredPromise_toPromise (DeferredPromise_resolve (VPromise p)) st1 in
  exists st', runs_to 0 st2 st' /\ promise_state q1 st' = Some (Rejected (DStr "E")).
Proof.
  split; [simpl; lia|].
  pose proof (DeferredPromise_resolve_promise (Already (Failure (DStr "E"))) 0 0
                (Nat.le_refl 0)) as H.
  cbv zeta in H. same_scenario H. destruct H as (st' & Hrun & _ & _ & _ & H1 & _ & Hp).
  exists st'. split; [exact Hrun|]. rewrite H1. exact Hp.
Defined.

Lemma DeferredPromise_toPromise_independent_witness :
  flaky 0 = (1, now (Failure (DStr "first"))) /\
  settles_now 1 = (2, now (Success (DNum 1))) /\
  let f : @PromiseExecutor nat := fun n => if Nat.eqb n 0 then flaky n else settles_now n in
  let (p1, st1) := DeferredPromise_toPromise (mkDeferred (ExUser f)) (boot 0) in
  let (p2, st2) := DeferredPromise_toPromise (mkDeferred (ExUser f)) st1 in
  promise_state p1 st2 = Some (Rejected (DStr "first")) /\
  promise_state p2 st2 = Some (Fulfilled (DNum 1)).
Proof.
  split; [reflexivity | split; [reflexivity|]]. intros f.
  pose proof (DeferredPromise_toPromise_independent f (Failure (DStr "first"))
                (Success (DNum 1)) 0 1 2 eq_refl eq_refl) as H.
  cbv zeta in H. same_scenario H. destruct H as (_ & _ & H1 & H2). split; [exact H1 | exact H2].
Defined.

Lemma DeferredPromise_finally_spec_witness :
  settles_now 0 = (1, now (Success (DNum 1))) /\
  let fin : @Thunk nat :=
    fun n => if Nat.eqb n 1 then (2, Normal DUndefined) else (n, Throw (DStr "boom")) in
  let (p1, st1) := DeferredPromise_finally (mkDeferred (ExUser settles_now)) fin (boot 0) in
  exists st2, runs_to 0 st1 st2 /\
    world st2 = 2 /\ promise_state p1 st2 = Some (Fulfilled (DNum 1)).
Proof.
  split; [reflexivity|]. intros fin.
  pose proof (DeferredPromise_finally_spec settles_now fin (Success (DNum 1)) DUndefined
                (DStr "boom") 0 1 2 3 0 eq_refl eq_refl eq_refl eq_refl) as H.
  cbv zeta in H. same_scenario H. destruct H as (st2 & Hrun & Hw & Hp & _).
  exists st2. split; [exact Hrun | split; [exact Hw | exact Hp]].
Defined.

Lemma PublishedPromise_reject_spec_witness :
  counting (Normal DUndefined) 1 = (2, Normal DUndefined) /\
  let (this, st0) := Promise_publish None (boot 0) in
  let (q1, st1) :=
    PublishedPromise_catch this (Some (FnUser (observe (fun _ n => S n)))) st0 in
  let (q2, st2) := PublishedPromise_finally this (counting (Normal DUndefined)) st1 in
  exists st3, runs_to 0 (PublishedPromise_reject this (DStr "E") st2) st3 /\
    world st3 = 2 /\
    promise_state (PublishedPromise_toPromise this) st3 = Some (Rejected (DStr "E")) /\
    promise_state q1 st3 = Some (Fulfilled DUndefined) /\
    promise_state q2 st3 = Some (Rejected (DStr "E")).
Proof.
  split; [reflexivity|].
  pose proof (PublishedPromise_reject_spec (DStr "E") (fun _ n => S n)
                (counting (Normal DUndefined)) DUndefined 0 2 0 eq_refl) as H.
  same_scenario H. exact H.
Defined.

Lemma PublishedPromise_resolve_promise_witness :
  settles_at (After 3 (Success (DNum 1))) <= 3 /\
  let (p, st0) := source (After 3 (Success (DNum 1))) (boot 0) in
  let (this, st1) := Promise_publish None st0 in
  let st2 := PublishedPromise_resolve this (VPromise p) st1 in
  foldl (external this) st2 [CallsReject (DStr "no")] = st2 /\
  exists st3, runs_to 3 st2 st3 /\
    promise_state (PublishedPromise_toPromise this) st3 = Some (Fulfilled (DNum 1)).
Proof.
  split; [simpl; lia|].
  pose proof (PublishedPromise_resolve_promise (After 3 (Success (DNum 1)))
                [CallsReject (DStr "no")] 0 3 (Nat.le_refl 3)) as [H _].
  same_scenario H. exact H.
Defined.

Lemma supplier_exception_witness :
  let f : @PromiseExecutor nat := fun n => (S n, raises (DStr "boom")) in
  let g : @PromiseExecutor nat :=
    fun n => (S n, mkOutcome [CallResolve (DNum 1)] (Some (VData (DStr "boom")))) in
  f 0 = (1, raises (DStr "boom")) /\
  (let (this, st) := Promise_publish (Some (ExUser f)) (boot 0) in
   promise_state (PublishedPromise_toPromise this) st = Some (Rejected (DStr "boom"))) /\
  (let (this, st) := Promise_publish (Some (ExUser g)) (boot 0) in
   promise_state (PublishedPromise_toPromise this) st = Some (Fulfilled (DNum 1))).
Proof.
  intros f g. split; [reflexivity|].
  pose proof (supplier_exception f g (DNum 1) (DStr "boom") 0 1 1 eq_refl eq_refl)
    as (H1 & _ & H2 & _).
  split; [exact H1 | exact H2].
Defined.

Lemma retry_edges_witness :
  let g : @PromiseExecutor nat := fun n => (S n, fails_with (DStr "no")) in
  let fn : @RetryTester nat := fun _ _ n => (S n, false) in
  settles_now 0 = (1, succeeds_with (DNum 1)) /\
  g 0 = (1, failure false (DStr "no")) /\
  fn 1%Z (VData (DStr "no")) 1 = (2, false) /\
  (let (r, st) := DeferredPromise_retry (mkDeferred (ExUser settles_now)) (Some fn) (boot 0) in
   exists st', runs_to 0 st st' /\
     promise_state r st' = Some (Fulfilled (DNum 1)) /\ world st' = 1) /\
  (let (r, st) := DeferredPromise_retry (mkDeferred (ExUser g)) (Some fn) (boot 0) in
   exists st', runs_to 0 st st' /\
     promise_state r st' = Some (Rejected (DStr "no")) /\ world st' = 2).
Proof.
  intros g fn. split; [reflexivity | split; [reflexivity | split; [reflexivity|]]].
  pose proof (retry_edges settles_now g fn (DNum 1) (DStr "no") false 0 1 1 2 0
                eq_refl eq_refl eq_refl) as (_ & H1 & H2).
  split; [exact H1 | exact H2].
Defined.

Lemma retry_starves_timers_witness :
  always_fails (ExUser (fun n : nat => (S n, fails_with (DStr "no")))) /\
  let (t, st0) := Promise_timer 0 (boot 0) in
  let (r, st) :=
    DeferredPromise_retry
      (mkDeferred (ExUser (fun n : nat => (S n, fails_with (DStr "no"))))) None st0 in
  ~ idle 100 (run 50 100 st) /\
  promise_state t (run 50 100 st) = Some Pending /\
  promise_state r (run 50 100 st) = Some Pending.
Proof.
  assert (Hex : always_fails (ExUser (fun n : nat => (S n, fails_with (DStr "no")))))
    by (intros n; exists false, (DStr "no"); reflexivity).
  split; [exact Hex|].
  pose proof (retry_starves_timers _ 0 0 50 100 Hex) as H.
  same_scenario H. destruct H as (H1 & _ & H2 & H3).
  split; [exact H1 | split; [exact H2 | exact H3]].
Defined.

Lemma equals_symmetric_witness :
  settles (After 3 (Success DNaN)) = Some (Success DNaN) /\
  settles_at (After 3 (Success DNaN)) <= 3 /\
  let (a, st1) := source (After 3 (Success DNaN)) (boot 0) in
  let (b, st2) := source (Already (Success (DNum 1))) st1 in
  let (q1, st3) := Promise_equals a b st2 in
  let (q2, st4) := Promise_equals b a st3 in
  let (q3, st5) := Promise_equals a a st4 in
  exists st', runs_to 3 st5 st' /\
    promise_state q1 st' = Some (Fulfilled (DBool false)) /\
    promise_state q2 st' = Some (Fulfilled (DBool false)) /\
    promise_state q3 st' = Some (Fulfilled (DBool false)).
Proof.
  split; [reflexivity | split; [simpl; lia|]].
  pose proof (equals_symmetric (After 3 (Success DNaN)) (Already (Success (DNum 1)))
                DNaN (DNum 1) 0 3 eq_refl eq_refl (Nat.le_refl 3) (Nat.le_0_l 3)) as H.
  same_scenario H. exact H.
Defined.

Lemma settled_promises_stay_witness :
  promise_state 0 (snd (Promise_reject (DStr "E") (boot 0))) = Some (Rejected (DStr "E")) /\
  promise_state 0
    (snd (DeferredPromise_retry (mkDeferred (ExUser settles_now)) None
            (snd (Promise_reject (DStr "E") (boot 0))))) = Some (Rejected (DStr "E")) /\
  promise_state 0
    (snd (Promise_equals 0 0 (snd (Promise_reject (DStr "E") (boot 0))))) =
    Some (Rejected (DStr "E")).
Proof.
  split; [reflexivity|].
  assert (Hst : Rejected (DStr "E") <> @Pending) by discriminate.
  pose proof (settled_promises_stay 0 (Rejected (DStr "E"))
                (snd (Promise_reject (DStr "E") (boot 0)))
                (mkDeferred (ExUser settles_now)) None None (counting (Normal DUndefined))
                None 0 0 0 DUndefined None divides 0 (counting (Normal DUndefined)) None
                eq_refl Hst) as ((_ & _ & _ & _ & H1) & (_ & _ & H2 & _)).
  split; [exact H1 | exact H2].
Defined.

Lemma timeout_of_published_witness :
  2 <= 7 /\
  let (this, st0) := Promise_publish None (boot 0) in
  let (q, st1) := Promise_timeout (PublishedPromise_toPromise this) 5 st0 in
  exists st2, runs_to 2 st1 st2 /\
    promise_state q st2 = Some Pending /\
    exists st3, runs_to 7 (PublishedPromise_resolve this (DNum 1) st2) st3 /\
      promise_state (PublishedPromise_toPromise this) st3 = Some (Fulfilled (DNum 1)) /\
      promise_state q st3 = Some (Fulfilled (DNum 1)).
Proof.
  assert (H12 : 2 <= 7) by lia.
  split; [exact H12|].
  pose proof (timeout_of_published (DNum 1) 5 2 7 0 H12) as H.
  same_scenario H. exact H.
Defined.

(** * A source that starves the timer *)

